(** * api-smoke: the test-execution engine of [src/index.ts]

    A shallow embedding of the request builder, the response
    normaliser, the assertion evaluator ([checkAssertions]), the test
    runner ([runTest]) and the suite orchestrator ([cmdRun]), followed by
    the properties of the specification that concern them.

    Conventions of the embedding.
    - A JavaScript object used as a dictionary and only read by key
      (request and response headers, the environments of a config) is a
      [gmap string _] of its own properties; where the code reads such
      an object under a name that comes from the config or the command
      line, the properties it inherits are modelled beside it.
    - The fields of [expect.body] and [expect.headerContains] are lists
      in the order of their declaration, which [Object_entries] puts in
      the order of enumeration. The members of a JSON value and the
      headers handed over by the HTTP client are lists in the order of
      enumeration.
    - A string is a [string] whose characters stand for code units below
      256. A number is an integer [Z]; it stands for a JavaScript number
      when it is a safe integer (below 2^53 in magnitude), and is then
      printed in decimal as JavaScript prints it. Fractions, infinities
      and NaN are outside the embedding; the properties that depend on
      the text or the value of a number say so.
    - The network, the clock and [JSON.parse] are parameters of the
      development: a world that is threaded through every request. *)

From Stdlib Require Import ZArith String Ascii List Bool Lia.
From Stdlib Require Import DecimalString DecimalZ DecimalPos.
From stdpp Require Import gmap strings list fin_maps.

Local Open Scope string_scope.
Local Open Scope Z_scope.
Local Open Scope list_scope.

(** ** Strings *)

(** [String(n)] for an integral number. *)
Definition Number_toString (n : Z) : string :=
  NilZero.string_of_int (Z.to_int n).

(** [s.includes(t)]: [t] occurs in [s] as a literal substring. *)
Fixpoint includes (s t : string) : bool :=
  String.prefix t s ||
  match s with
  | EmptyString => false
  | String _ s' => includes s' t
  end.

(** The lower-case form of a code unit below 256: the letters [A]-[Z]
    and the capital letters of Latin-1 (192 to 222, the multiplication
    sign 215 apart) move up by 32. *)
Definition lower_ascii (c : ascii) : ascii :=
  let n := N_of_ascii c in
  if ((65 <=? n) && (n <=? 90) ||
      (192 <=? n) && (n <=? 222) && negb (n =? 215))%N
  then ascii_of_N (n + 32) else c.

(** [s.toLowerCase()]. *)
Fixpoint toLowerCase (s : string) : string :=
  match s with
  | EmptyString => EmptyString
  | String c s' => String (lower_ascii c) (toLowerCase s')
  end.

(** ** JSON values and [JSON.stringify] *)

#[local] Unset Elimination Schemes.
Inductive JSON : Type :=
| JNull
| JBool (b : bool)
| JNum (n : Z)
| JStr (s : string)
| JArr (items : list JSON)
| JObj (members : list (string * JSON)).
#[local] Set Elimination Schemes.

Definition dquote : ascii := ascii_of_N 34.

Definition hex_digit (n : N) : ascii :=
  ascii_of_N (if (n <? 10)%N then 48 + n else 87 + n).

(** The escape of one character inside a JSON string literal. *)
Definition escape_char (c : ascii) : string :=
  let n := N_of_ascii c in
  if (n =? 8)%N then "\b"
  else if (n =? 9)%N then "\t"
  else if (n =? 10)%N then "\n"
  else if (n =? 12)%N then "\f"
  else if (n =? 13)%N then "\r"
  else if (n =? 34)%N then String "\" (String dquote EmptyString)
  else if (n =? 92)%N then "\\"
  else if (n <? 32)%N then
    "\u00" +:+ String (hex_digit (n / 16)) (String (hex_digit (n mod 16)) EmptyString)
  else String c EmptyString.

Fixpoint escape (s : string) : string :=
  match s with
  | EmptyString => EmptyString
  | String c s' => escape_char c +:+ escape s'
  end.

(** [JSON.stringify(s)] for a string [s]. *)
Definition quote (s : string) : string :=
  String dquote (escape s +:+ String dquote EmptyString).

(** [JSON.stringify(v)] for a JSON value, without indentation. *)
Fixpoint JSON_stringify (v : JSON) : string :=
  match v with
  | JNull => "null"
  | JBool true => "true"
  | JBool false => "false"
  | JNum n => Number_toString n
  | JStr s => quote s
  | JArr items => "[" +:+ String.concat "," (map JSON_stringify items) +:+ "]"
  | JObj members =>
      "{" +:+ String.concat ","
                (map (fun kv => quote (fst kv) +:+ ":" +:+ JSON_stringify (snd kv)) members)
          +:+ "}"
  end.

(** [JSON.stringify] applied to a value that may be [undefined]: the
    result is then [undefined] as well. *)
Definition JSON_stringify_opt (v : option JSON) : option string :=
  JSON_stringify <$> v.


(** [if (v)]: the truthiness of a JSON value. *)
Definition truthy (v : JSON) : bool :=
  match v with
  | JNull => false
  | JBool b => b
  | JNum n => negb (n =? 0)
  | JStr s => negb (String.eqb s "")
  | JArr _ | JObj _ => true
  end.

(** [typeof v === "object"]. *)
Definition typeof_object (v : JSON) : bool :=
  match v with
  | JNull | JArr _ | JObj _ => true
  | _ => false
  end.

(** The own property [key] of an object, given by its entries. *)
Fixpoint entries_get {A} (members : list (string * A)) (key : string) : option A :=
  match members with
  | [] => None
  | (k, v) :: rest => if String.eqb k key then Some v else entries_get rest key
  end.

(** The own property [key] of an array whose first index is [i]: an
    element under its index written in decimal. *)
Fixpoint items_get (items : list JSON) (i : Z) (key : string) : option JSON :=
  match items with
  | [] => None
  | v :: rest =>
      if String.eqb (Number_toString i) key then Some v
      else items_get rest (i + 1) key
  end.

(** What a property that is not an own property is read as. Every
    object inherits the methods of its prototype, and a method has no
    JSON text: in a comparison of JSON texts it reads as [undefined]. The
    one inherited property with a JSON text is [__proto__], the prototype
    itself, which has no enumerable member: it reads as the empty value
    of its kind. *)
Definition inherited_property (prototype : JSON) (key : string) : option JSON :=
  if String.eqb key "__proto__" then Some prototype else None.

(** [v?.[key]] for a value [v] with [typeof v === "object"], up to the
    JSON text of the result: an own property first, an inherited one
    otherwise. *)
Definition get_property (v : JSON) (key : string) : option JSON :=
  match v with
  | JObj members =>
      match entries_get members key with
      | Some x => Some x
      | None => inherited_property (JObj []) key
      end
  | JArr items =>
      if String.eqb key "length" then Some (JNum (Z.of_nat (length items)))
      else
        match items_get items 0 key with
        | Some x => Some x
        | None => inherited_property (JArr []) key
        end
  | _ => None
  end.


(** ** Truthiness of optional strings *)

(** [if (s)] for [s : string | undefined]: [undefined] and the empty
    string are falsy. *)
Definition str_truthy (s : option string) : bool :=
  match s with
  | Some s => negb (String.eqb s "")
  | None => false
  end.

(** [s || d] for [s : string | undefined]. *)
Definition str_or (s : option string) (d : string) : string :=
  match s with
  | Some s => if String.eqb s "" then d else s
  | None => d
  end.

(** ** The data model of [index.ts] *)

(** [string | string[]], the type of [bodyContains] and [bodyNotContains]. *)
Inductive Terms : Type :=
| OneTerm (term : string)
| ManyTerms (terms : list string).

(** [if (t)] for [t : string | string[]]. *)
Definition terms_truthy (t : Terms) : bool :=
  match t with
  | OneTerm s => negb (String.eqb s "")
  | ManyTerms _ => true
  end.

(** [Array.isArray(t) ? t : [t]]. *)
Definition terms_array (t : Terms) : list string :=
  match t with
  | OneTerm s => [s]
  | ManyTerms l => l
  end.

(** The expectations of a test. [body] and [headerContains] hold their
    fields in the order in which the config declares them, under
    distinct keys. *)
Module Expect.
Record t : Type := mk {
  status : option Z;
  body : option (list (string * JSON));
  bodyContains : option Terms;
  bodyNotContains : option Terms;
  headerContains : option (list (string * string));
}.
End Expect.

Module TestCase.
Record t : Type := mk {
  name : string;
  path : string;
  method : string;
  headers : option (gmap string string);
  body : option JSON;
  expect : Expect.t;
}.
End TestCase.

Module Environment.
Record t : Type := mk {
  baseUrl : string;
  headers : option (gmap string string);
}.
End Environment.

Module SmokeConfig.
Record t : Type := mk {
  environments : option (gmap string Environment.t);
  tests : list TestCase.t;
}.
End SmokeConfig.

Module Assertion.
Record t : Type := mk {
  check : string;
  passed : bool;
  detail : option string;
}.
End Assertion.

Module TestResult.
Record t : Type := mk {
  name : string;
  passed : bool;
  status : option Z;
  expectedStatus : option Z;
  responseTime : Z;
  assertions : list Assertion.t;
  error : option string;
}.
End TestResult.

(** The value [makeRequest] resolves to. *)
Module Response.
Record t : Type := mk {
  status : Z;
  headers : gmap string string;
  body : JSON;
  bodyRaw : string;
}.
End Response.

Module ParsedArgs.
Record t : Type := mk {
  command : string;
  configFile : option string;
  json : bool;
  env : string;
  parallel : bool;
  bail : bool;
  timeout : Z;
  verbose : bool;
  help : bool;
}.
End ParsedArgs.

(** ** The HTTP client seen from [makeRequest] *)

(** What [client.request] is called with, and what is written to it. *)
Module Request.
Record t : Type := mk {
  url : string;
  method : string;
  headers : gmap string string;
  timeout : Z;
  bodyStr : option string;
}.
End Request.

(** A value of [res.headers]: [string | string[] | undefined]. *)
Inductive HeaderValue : Type :=
| HUndefined
| HOne (value : string)
| HMany (values : list string).

(** The message the response callback receives, once its [end] event
    has fired: [data] is the concatenation of the chunks. *)
Module IncomingMessage.
Record t : Type := mk {
  statusCode : option Z;
  headers : list (string * HeaderValue);
  data : string;
}.
End IncomingMessage.

(** How a request settles: the response ends, the request emits
    [error] (a URL that [new URL] refuses and a request that the client
    refuses when it is made are such errors, with their message), or it
    emits [timeout]. *)
Inductive Settled : Type :=
| Responded (res : IncomingMessage.t)
| Errored (message : string)
| TimedOut.

(** ** [makeRequest]: the request that is made *)

(** The first half of [makeRequest]: [bodyStr], [reqHeaders] and the
    options of [client.request]. A spread [{ a: x, ...headers }] is the
    union in which [headers] wins. *)
Definition makeRequest_request (url method : string) (headers : gmap string string)
    (body : option JSON) (timeout : Z) : Request.t :=
  let bodyStr :=
    match body with
    | Some b => if truthy b then Some (JSON_stringify b) else None
    | None => None
    end in
  let reqHeaders : gmap string string :=
    headers ∪ {[ "User-Agent" := "api-smoke/1.0.0" ]} in
  let reqHeaders :=
    if str_truthy bodyStr && negb (str_truthy (reqHeaders !! "Content-Type"))
    then <[ "Content-Type" := "application/json" ]> reqHeaders
    else reqHeaders in
  Request.mk url method reqHeaders timeout bodyStr.

(** [if (val)] for a value of [res.headers]. *)
Definition header_truthy (val : HeaderValue) : bool :=
  match val with
  | HUndefined => false
  | HOne s => negb (String.eqb s "")
  | HMany _ => true
  end.

(** [Array.isArray(val) ? val.join(", ") : val]. *)
Definition header_text (val : HeaderValue) : string :=
  match val with
  | HUndefined => ""
  | HOne s => s
  | HMany l => String.concat ", " l
  end.

(** The loop over [Object.entries(res.headers)] that fills
    [responseHeaders]. *)
Definition responseHeaders_of (entries : list (string * HeaderValue)) : gmap string string :=
  fold_left
    (fun (responseHeaders : gmap string string) (entry : string * HeaderValue) =>
       if header_truthy (snd entry)
       then <[ fst entry := header_text (snd entry) ]> responseHeaders
       else responseHeaders)
    entries ∅.

(** ** [Object.entries] *)

(** An array index: the decimal text of an integer from 0 to 2^32 - 2. *)
Definition array_index (key : string) : option N :=
  match NilEmpty.uint_of_string key with
  | Some d =>
      let n := Pos.of_uint d in
      if String.eqb (Number_toString (Z.of_N n)) key && (n <? 4294967295)%N
      then Some n else None
  | None => None
  end.

Fixpoint insert_index {A} (n : N) (entry : string * A) (sorted : list (N * (string * A)))
  : list (N * (string * A)) :=
  match sorted with
  | [] => [(n, entry)]
  | (m, other) :: rest =>
      if (n <? m)%N then (n, entry) :: sorted
      else (m, other) :: insert_index n entry rest
  end.

(** The entries whose key is an array index, by ascending index. *)
Fixpoint index_entries {A} (declared : list (string * A)) : list (N * (string * A)) :=
  match declared with
  | [] => []
  | entry :: rest =>
      match array_index (fst entry) with
      | Some n => insert_index n entry (index_entries rest)
      | None => index_entries rest
      end
  end.

(** The entries whose key is no array index, as they were declared. *)
Fixpoint named_entries {A} (declared : list (string * A)) : list (string * A) :=
  match declared with
  | [] => []
  | entry :: rest =>
      match array_index (fst entry) with
      | Some _ => named_entries rest
      | None => entry :: named_entries rest
      end
  end.

(** [Object.entries(o)] for an object [o] whose properties were declared
    in the order [declared], under distinct keys: the properties whose
    key is an array index come first, by ascending index, the others
    follow in the order of their declaration. *)
Definition Object_entries {A} (declared : list (string * A)) : list (string * A) :=
  map snd (index_entries declared) ++ named_entries declared.

(** ** [checkAssertions] *)

Definition push {A} (results : list A) (x : A) : list A := results ++ [x].

(** The body of the loop over [Object.entries(test.expect.body)]. The
    text of [expected] is a string, the text of [actual] is [undefined]
    when [actual] is: [===] then fails. *)
Definition body_field_check (response_body : JSON) (key : string) (expected : JSON)
  : Assertion.t :=
  let actual :=
    if typeof_object response_body then get_property response_body key else None in
  let passed :=
    match JSON_stringify_opt actual with
    | Some text => String.eqb text (JSON_stringify expected)
    | None => false
    end in
  Assertion.mk
    ("body." +:+ key +:+ " === " +:+ JSON_stringify expected)
    passed
    (if passed then None
     else Some ("Got " +:+ default "undefined" (JSON_stringify_opt actual))).

Definition body_contains_check (bodyRaw term : string) : Assertion.t :=
  let passed := includes bodyRaw term in
  Assertion.mk ("Body contains " +:+ String dquote term +:+ String dquote "") passed None.

Definition body_not_contains_check (bodyRaw term : string) : Assertion.t :=
  let passed := negb (includes bodyRaw term) in
  Assertion.mk ("Body doesn't contain " +:+ String dquote term +:+ String dquote "") passed None.

(** The body of the loop over [Object.entries(test.expect.headerContains)].
    The template of [detail] is garbled in the source, its closing
    quotation mark and brace being swapped: it is read here as [Got], a
    space and a quotation mark, followed by [actual], or by [(missing)}]
    for a falsy [actual]. No property below depends on what follows
    [Got] in that text. The check is given as it goes when the lookup
    does not throw, see [header_check_throws]. *)
Definition header_check (response_headers : gmap string string) (key expected : string)
  : Assertion.t :=
  let actual := response_headers !! toLowerCase key in
  let passed :=
    if str_truthy actual then includes (default "" actual) expected else false in
  Assertion.mk
    ("Header " +:+ key +:+ " contains " +:+ String dquote expected +:+ String dquote "")
    passed
    (if passed then None
     else Some ("Got " +:+ String dquote (str_or actual "(missing)}"))).

Definition status_check (response_status expected : Z) : Assertion.t :=
  let passed := response_status =? expected in
  Assertion.mk
    ("Status is " +:+ Number_toString expected)
    passed
    (if passed then None else Some ("Got " +:+ Number_toString response_status)).

Definition checkAssertions (test : TestCase.t) (response : Response.t)
  : list Assertion.t :=
  let expect := TestCase.expect test in
  let results : list Assertion.t := [] in
  (* Status check *)
  let results :=
    match Expect.status expect with
    | Some expected => push results (status_check (Response.status response) expected)
    | None => results
    end in
  (* Body field checks *)
  let results :=
    match Expect.body expect with
    | Some fields =>
        fold_left
          (fun results entry =>
             push results (body_field_check (Response.body response) (fst entry) (snd entry)))
          (Object_entries fields) results
    | None => results
    end in
  (* Body contains *)
  let results :=
    match Expect.bodyContains expect with
    | Some terms =>
        if terms_truthy terms then
          fold_left
            (fun results term =>
               push results (body_contains_check (Response.bodyRaw response) term))
            (terms_array terms) results
        else results
    | None => results
    end in
  (* Body not contains *)
  let results :=
    match Expect.bodyNotContains expect with
    | Some terms =>
        if terms_truthy terms then
          fold_left
            (fun results term =>
               push results (body_not_contains_check (Response.bodyRaw response) term))
            (terms_array terms) results
        else results
    | None => results
    end in
  (* Header checks *)
  let results :=
    match Expect.headerContains expect with
    | Some fields =>
        fold_left
          (fun results entry =>
             push results (header_check (Response.headers response) (fst entry) (snd entry)))
          (Object_entries fields) results
    | None => results
    end in
  results.

(** *** A header check that throws *)

(** What [response.headers[key.toLowerCase()]] reads. The headers are
    an object literal that [makeRequest] fills by assignment: a name that
    was assigned reads as its text, and a name that was not reads through
    the prototype. Of the inherited names only [constructor] and
    [__proto__] are in lower case; the first reads as a function unless a
    header of that name was assigned, the second always reads as the
    prototype, an assignment to it being without effect. *)
Inductive HeaderRead : Type :=
| ReadText (value : string)
| ReadUndefined
| ReadInherited.

Definition header_read (response_headers : gmap string string) (key : string) : HeaderRead :=
  let name := toLowerCase key in
  if String.eqb name "__proto__" then ReadInherited
  else
    match response_headers !! name with
    | Some value => ReadText value
    | None => if String.eqb name "constructor" then ReadInherited else ReadUndefined
    end.

(** [actual.includes(expected)] throws a [TypeError] when [actual] is
    truthy and no string: when it is inherited. *)
Definition header_check_throws (response_headers : gmap string string) (key : string)
  : bool :=
  match header_read response_headers key with
  | ReadInherited => true
  | _ => false
  end.

(** The message of that error. *)
Definition includes_TypeError : string := "actual.includes is not a function".

(** Whether [checkAssertions] throws instead of returning: whether one
    of its header checks does. When it does not, [checkAssertions] above
    is what it returns. *)
Definition checkAssertions_throws (test : TestCase.t) (response : Response.t) : bool :=
  match Expect.headerContains (TestCase.expect test) with
  | Some fields =>
      existsb (fun entry => header_check_throws (Response.headers response) (fst entry))
        (Object_entries fields)
  | None => false
  end.

(** ** The report of a run *)

(** The object that [cmdRun] prints under [--json]. *)
Module Report.
Record t : Type := mk {
  environment : string;
  baseUrl : string;
  total : nat;
  passed : nat;
  failed : nat;
  duration : Z;
  results : list TestResult.t;
}.
End Report.

(** A run that has completed: its report and the exit code of the
    process. *)
Module Run.
Record t : Type := mk {
  report : Report.t;
  exitCode : Z;
}.
End Run.

(** [Promise.all]: fulfilled with the values in the order of the
    promises once every one of them is fulfilled, pending ([None])
    otherwise. *)
Fixpoint Promise_all {A} (slots : list (option A)) : option (list A) :=
  match slots with
  | [] => Some []
  | slot :: rest =>
      match slot, Promise_all rest with
      | Some x, Some xs => Some (x :: xs)
      | _, _ => None
      end
  end.

Section Engine.

(** The world outside the process: [now] is [Date.now()], [send] makes a
    request ([client.request], [req.write], [req.end]), [settle] waits
    until that request has settled. [JSON_parse] is [JSON.parse], with
    [None] for a thrown [SyntaxError]. *)
Context {World : Type}.
Variable now : World -> Z.
Variable send : Request.t -> World -> World.
Variable settle : Request.t -> World -> Settled * World.
Variable JSON_parse : string -> option JSON.

(** The second half of [makeRequest]: what the promise settles to,
    [inl] for [resolve] and [inr] for [reject] with the error's message. *)
Definition makeRequest_settled (req : Request.t) (s : Settled) : Response.t + string :=
  match s with
  | Responded res =>
      let rawBody := IncomingMessage.data res in
      let parsedBody := default (JStr rawBody) (JSON_parse rawBody) in
      let responseHeaders := responseHeaders_of (IncomingMessage.headers res) in
      inl (Response.mk (default 0 (IncomingMessage.statusCode res))
             responseHeaders parsedBody rawBody)
  | Errored message => inr message
  | TimedOut =>
      inr ("Timeout after " +:+ Number_toString (Request.timeout req) +:+ "ms")
  end.

Definition makeRequest (url method : string) (headers : gmap string string)
    (body : option JSON) (timeout : Z) (w : World) : (Response.t + string) * World :=
  let req := makeRequest_request url method headers body timeout in
  let w := send req w in
  let '(s, w) := settle req w in
  (makeRequest_settled req s, w).

(** ** [runTest] *)

(** [n || null] for [n : number | undefined]. *)
Definition num_or_null (n : option Z) : option Z :=
  match n with
  | Some n => if n =? 0 then None else Some n
  | None => None
  end.

(** The arguments [runTest] passes to [makeRequest]. *)
Definition runTest_url (test : TestCase.t) (baseUrl : string) : string :=
  baseUrl +:+ TestCase.path test.

Definition runTest_method (test : TestCase.t) : string :=
  str_or (Some (TestCase.method test)) "GET".

Definition runTest_headers (test : TestCase.t) (envHeaders : gmap string string)
  : gmap string string :=
  default ∅ (TestCase.headers test) ∪ envHeaders.

(** The result of [runTest] for a test started at [start] whose request
    settled to [outcome] at [finish]: the [try] branch for a response,
    the [catch] branch for a rejection, and the [catch] branch after the
    status was assigned for a response on which [checkAssertions]
    throws. *)
Definition runTest_result (test : TestCase.t) (start : Z)
    (outcome : Response.t + string) (finish : Z) : TestResult.t :=
  let expectedStatus := num_or_null (Expect.status (TestCase.expect test)) in
  match outcome with
  | inl response =>
      if checkAssertions_throws test response then
        TestResult.mk (TestCase.name test)
          false
          (Some (Response.status response))
          expectedStatus
          (finish - start)
          []
          (Some includes_TypeError)
      else
      let assertions := checkAssertions test response in
      TestResult.mk (TestCase.name test)
        (forallb Assertion.passed assertions)
        (Some (Response.status response))
        expectedStatus
        (finish - start)
        assertions
        None
  | inr message =>
      TestResult.mk (TestCase.name test)
        false
        None
        expectedStatus
        (finish - start)
        []
        (Some message)
  end.

Definition runTest (test : TestCase.t) (baseUrl : string)
    (envHeaders : gmap string string) (timeout : Z) (w : World) : TestResult.t * World :=
  let start := now w in
  let '(outcome, w) :=
    makeRequest (runTest_url test baseUrl) (runTest_method test)
      (runTest_headers test envHeaders) (TestCase.body test) timeout w in
  (runTest_result test start outcome (now w), w).

(** A call of [runTest] that is suspended at its [await]: the test, the
    time it started at and the request it has made. *)
Record Pending : Type := mkPending {
  pending_test : TestCase.t;
  pending_start : Z;
  pending_request : Request.t;
}.

(** [runTest] up to its [await]. *)
Definition runTest_begin (test : TestCase.t) (baseUrl : string)
    (envHeaders : gmap string string) (timeout : Z) (w : World) : Pending * World :=
  let start := now w in
  let req :=
    makeRequest_request (runTest_url test baseUrl) (runTest_method test)
      (runTest_headers test envHeaders) (TestCase.body test) timeout in
  (mkPending test start req, send req w).

(** [runTest] from its [await] on. *)
Definition runTest_resume (p : Pending) (w : World) : TestResult.t * World :=
  let '(s, w) := settle (pending_request p) w in
  (runTest_result (pending_test p) (pending_start p)
     (makeRequest_settled (pending_request p) s) (now w), w).

(** ** [cmdRun] *)

(** The sequential loop of [cmdRun], with its [break]. *)
Fixpoint run_sequential (bail : bool) (baseUrl : string) (envHeaders : gmap string string)
    (timeout : Z) (tests : list TestCase.t) (results : list TestResult.t) (w : World)
  : list TestResult.t * World :=
  match tests with
  | [] => (results, w)
  | test :: rest =>
      let '(result, w) := runTest test baseUrl envHeaders timeout w in
      let results := push results result in
      if bail && negb (TestResult.passed result) then (results, w)
      else run_sequential bail baseUrl envHeaders timeout rest results w
  end.

(** [config.tests.map((test) => runTest(...))]: every call runs up to its
    [await] before the next one starts. *)
Fixpoint begin_all (baseUrl : string) (envHeaders : gmap string string) (timeout : Z)
    (tests : list TestCase.t) (w : World) : list Pending * World :=
  match tests with
  | [] => ([], w)
  | test :: rest =>
      let '(p, w) := runTest_begin test baseUrl envHeaders timeout w in
      let '(ps, w) := begin_all baseUrl envHeaders timeout rest w in
      (p :: ps, w)
  end.

(** The pending calls resume in the order [order] in which their requests
    settle; the promise of call [i] is fulfilled with its result. An
    index that names no pending call, or one that has settled already,
    changes nothing. *)
Fixpoint resume_all (pending : list Pending) (order : list nat)
    (slots : list (option TestResult.t)) (w : World)
  : list (option TestResult.t) * World :=
  match order with
  | [] => (slots, w)
  | i :: order =>
      match pending !! i, slots !! i with
      | Some p, Some None =>
          let '(result, w) := runTest_resume p w in
          resume_all pending order (<[ i := Some result ]> slots) w
      | _, _ => resume_all pending order slots w
      end
  end.

(** The parallel branch of [cmdRun]: [None] while [Promise.all] is
    pending. *)
Definition run_parallel (baseUrl : string) (envHeaders : gmap string string)
    (timeout : Z) (tests : list TestCase.t) (order : list nat) (w : World)
  : option (list TestResult.t) * World :=
  let '(pending, w) := begin_all baseUrl envHeaders timeout tests w in
  let '(slots, w) := resume_all pending order (replicate (length pending) None) w in
  (Promise_all slots, w).

(** The names that every object inherits from [Object.prototype]. *)
Definition Object_prototype_names : list string :=
  ["constructor"; "__proto__"; "hasOwnProperty"; "isPrototypeOf";
   "propertyIsEnumerable"; "toLocaleString"; "toString"; "valueOf";
   "__defineGetter__"; "__defineSetter__"; "__lookupGetter__"; "__lookupSetter__"].

Definition is_inherited_name (name : string) : bool :=
  existsb (String.eqb name) Object_prototype_names.

(** What [cmdRun] takes for the environment when the chosen name is an
    inherited one: a method, or the prototype, which is truthy and has
    neither a [baseUrl] nor [headers]. It is given as an environment with
    an empty base URL, which [|| ""] treats as a missing one. *)
Definition inherited_environment : Environment.t := Environment.mk "" None.

(** The environment [cmdRun] selects. An environment is an object and
    so truthy: [||] falls through exactly when the name is neither a key
    of the environments nor inherited by them. *)
Definition cmdRun_env (args : ParsedArgs.t) (config : SmokeConfig.t)
  : option Environment.t :=
  match SmokeConfig.environments config with
  | Some environments =>
      match environments !! ParsedArgs.env args with
      | Some env => Some env
      | None =>
          if is_inherited_name (ParsedArgs.env args) then Some inherited_environment
          else environments !! "default"
      end
  | None => None
  end.

Definition cmdRun_baseUrl (env : option Environment.t) : string :=
  str_or (Environment.baseUrl <$> env) "".

Definition cmdRun_envHeaders (env : option Environment.t) : gmap string string :=
  match env with
  | Some env => default ∅ (Environment.headers env)
  | None => ∅
  end.

(** [cmdRun] on a loaded config. [order] is the order in which the
    requests of a parallel run settle. The result is [None] when the run
    never completes. *)
Definition cmdRun (args : ParsedArgs.t) (config : SmokeConfig.t) (order : list nat)
    (w : World) : option Run.t * World :=
  let env := cmdRun_env args config in
  let baseUrl := cmdRun_baseUrl env in
  let envHeaders := cmdRun_envHeaders env in
  let startTime := now w in
  let '(settled, w) :=
    if ParsedArgs.parallel args then
      run_parallel baseUrl envHeaders (ParsedArgs.timeout args)
        (SmokeConfig.tests config) order w
    else
      let '(results, w) :=
        run_sequential (ParsedArgs.bail args) baseUrl envHeaders (ParsedArgs.timeout args)
          (SmokeConfig.tests config) [] w in
      (Some results, w) in
  match settled with
  | Some results =>
      let duration := now w - startTime in
      let report :=
        Report.mk (ParsedArgs.env args) baseUrl
          (length results)
          (length (filter (fun r => TestResult.passed r = true) results))
          (length (filter (fun r => TestResult.passed r = false) results))
          duration results in
      let exitCode :=
        if existsb (fun r => negb (TestResult.passed r)) results then 1 else 0 in
      (Some (Run.mk report exitCode), w)
  | None => (None, w)
  end.

End Engine.

(** ** Notions used to state the properties *)

(** A safe integer, [Number.isSafeInteger]: an integer that a JavaScript
    number holds exactly, and that it prints in decimal. *)
Definition safe_integer (n : Z) : bool := (- 2 ^ 53 <? n) && (n <? 2 ^ 53).


(** The terms of a [bodyContains] or [bodyNotContains] expectation that
    are checked: none when the field is missing or falsy. *)
Definition checked_terms (terms : option Terms) : list string :=
  match terms with
  | Some t => if terms_truthy t then terms_array t else []
  | None => []
  end.

(** The expectation set that declares nothing. *)
Definition no_expectations : Expect.t := Expect.mk None None None None None.

(** The length of the shortest prefix of [results] that ends with a
    result that has not passed; the length of [results] when all pass. *)
Fixpoint stop_index (results : list TestResult.t) : nat :=
  match results with
  | [] => 0%nat
  | r :: rest => if TestResult.passed r then S (stop_index rest) else 1%nat
  end.

(** *** Reading back the text of [JSON.stringify] *)

Definition is_digit (c : ascii) : bool :=
  let n := N_of_ascii c in ((48 <=? n) && (n <=? 57))%N.

Fixpoint all_digits (s : string) : bool :=
  match s with
  | EmptyString => true
  | String c s' => is_digit c && all_digits s'
  end.

(** What may follow a value inside a JSON text: nothing, or a character
    that is not a digit. *)
Definition no_digit_head (s : string) : bool :=
  match s with
  | EmptyString => true
  | String c _ => negb (is_digit c)
  end.

(** The text of a number: digits, at least one, after an optional sign. *)
Definition number_text (s : string) : bool :=
  match s with
  | EmptyString => false
  | String c s' =>
      if Ascii.eqb c "-" then
        match s' with
        | EmptyString => false
        | String _ _ => all_digits s'
        end
      else all_digits s
  end.



(** The kind of value that a JSON text starts, read off its first
    character. *)
Inductive Kind : Type := KNull | KBool | KNum | KStr | KArr | KObj.

Definition kind_of (v : JSON) : Kind :=
  match v with
  | JNull => KNull
  | JBool _ => KBool
  | JNum _ => KNum
  | JStr _ => KStr
  | JArr _ => KArr
  | JObj _ => KObj
  end.

Definition kind_of_text (s : string) : option Kind :=
  match s with
  | EmptyString => None
  | String c _ =>
      if Ascii.eqb c "n" then Some KNull
      else if Ascii.eqb c "t" || Ascii.eqb c "f" then Some KBool
      else if Ascii.eqb c "-" || is_digit c then Some KNum
      else if Ascii.eqb c dquote then Some KStr
      else if Ascii.eqb c "[" then Some KArr
      else if Ascii.eqb c "{" then Some KObj
      else None
  end.


(** A result that [runTest] can return for [test]. *)
Definition result_of (test : TestCase.t) (r : TestResult.t) : Prop :=
  exists start outcome finish,
    r = runTest_result test start outcome finish.

(** Every fulfilled slot holds a result of the call at its index. *)
Definition slots_ok (pending : list Pending) (slots : list (option TestResult.t)) : Prop :=
  forall i r, slots !! i = Some (Some r) ->
    exists p, pending !! i = Some p /\ result_of (pending_test p) r.

(** The arguments [args] with the flag [--bail] set to [bail]. *)
Definition with_bail (bail : bool) (args : ParsedArgs.t) : ParsedArgs.t :=
  ParsedArgs.mk (ParsedArgs.command args) (ParsedArgs.configFile args)
    (ParsedArgs.json args) (ParsedArgs.env args) (ParsedArgs.parallel args)
    bail (ParsedArgs.timeout args) (ParsedArgs.verbose args) (ParsedArgs.help args).

(** A small world to run the engine in: the clock is a counter that
    every event advances; a request to a URL that mentions [down] emits
    an error, any other one is answered with status 200, one header and
    the body [ok]; nothing parses as JSON. *)
Definition demo_now (w : nat) : Z := Z.of_nat w.

Definition demo_send (req : Request.t) (w : nat) : nat := S w.

Definition demo_settle (req : Request.t) (w : nat) : Settled * nat :=
  if includes (Request.url req) "down"
  then (Errored "connect ECONNREFUSED", S w)
  else (Responded
          (IncomingMessage.mk (Some 200) [("content-type", HOne "text/plain")] "ok"),
        S w).

Definition demo_parse (s : string) : option JSON := None.

Definition demo_test (name path : string) (expect : Expect.t) : TestCase.t :=
  TestCase.mk name path "GET" None None expect.

Definition demo_args (parallel bail : bool) : ParsedArgs.t :=
  ParsedArgs.mk "run" (Some "tests.yaml") true "staging" parallel bail 10000 false false.

(** ** [parseArgs] *)

(** [s.startsWith(t)]. *)
Definition startsWith (s t : string) : bool := String.prefix t s.

(** The white space that [parseInt] skips, among the code units below
    256: tab, line feed, vertical tab, form feed, carriage return, space
    and no-break space. *)
Definition is_white_space (c : ascii) : bool :=
  let n := N_of_ascii c in
  ((n =? 9) || (n =? 10) || (n =? 11) || (n =? 12) || (n =? 13) || (n =? 32)
   || (n =? 160))%N.

Fixpoint trim_start (s : string) : string :=
  match s with
  | EmptyString => EmptyString
  | String c s' => if is_white_space c then trim_start s' else s
  end.

(** The digits that [s] starts with. *)
Fixpoint digit_prefix (s : string) : string :=
  match s with
  | EmptyString => EmptyString
  | String c s' => if is_digit c then String c (digit_prefix s') else EmptyString
  end.

(** The number that the digits at the start of [s] write in base ten;
    none when [s] starts with no digit. *)
Definition digits_value (s : string) : option Z :=
  match digit_prefix s with
  | EmptyString => None
  | digits => (fun d => Z.of_N (Pos.of_uint d)) <$> NilEmpty.uint_of_string digits
  end.

(** [parseInt(s, 10)] for [s : string | undefined], with [None] for
    [NaN]: white space is skipped, then a sign is read, then digits, and
    what follows the digits is ignored. *)
Definition parseInt (s : option string) : option Z :=
  match s with
  | None => None
  | Some s =>
      match trim_start s with
      | String c rest =>
          if Ascii.eqb c "-" then Z.opp <$> digits_value rest
          else if Ascii.eqb c "+" then digits_value rest
          else digits_value (String c rest)
      | EmptyString => None
      end
  end.

(** [n || d] for [n : number], [None] being [NaN]. *)
Definition num_or (n : option Z) (d : Z) : Z :=
  match n with
  | Some n => if n =? 0 then d else n
  | None => d
  end.

(** The cases of the [switch] of [parseArgs]. *)
Inductive ArgKind : Type :=
| AHelp | AJson | AParallel | ABail | AVerbose | AEnv | ATimeout | AOther.

#[local] Instance ArgKind_eq_dec : EqDecision ArgKind.
Proof. solve_decision. Defined.

Definition arg_kind (arg : string) : ArgKind :=
  if String.eqb arg "--help" || String.eqb arg "-h" then AHelp
  else if String.eqb arg "--json" then AJson
  else if String.eqb arg "--parallel" || String.eqb arg "-p" then AParallel
  else if String.eqb arg "--bail" || String.eqb arg "-b" then ABail
  else if String.eqb arg "--verbose" || String.eqb arg "-v" then AVerbose
  else if String.eqb arg "--env" || String.eqb arg "-e" then AEnv
  else if String.eqb arg "--timeout" || String.eqb arg "-t" then ATimeout
  else AOther.

(** Assignments to the fields of [result]. *)
Definition with_command (command : string) (args : ParsedArgs.t) : ParsedArgs.t :=
  ParsedArgs.mk command (ParsedArgs.configFile args)
    (ParsedArgs.json args) (ParsedArgs.env args) (ParsedArgs.parallel args)
    (ParsedArgs.bail args) (ParsedArgs.timeout args) (ParsedArgs.verbose args)
    (ParsedArgs.help args).

Definition with_configFile (configFile : option string) (args : ParsedArgs.t)
  : ParsedArgs.t :=
  ParsedArgs.mk (ParsedArgs.command args) configFile
    (ParsedArgs.json args) (ParsedArgs.env args) (ParsedArgs.parallel args)
    (ParsedArgs.bail args) (ParsedArgs.timeout args) (ParsedArgs.verbose args)
    (ParsedArgs.help args).

Definition with_json (json : bool) (args : ParsedArgs.t) : ParsedArgs.t :=
  ParsedArgs.mk (ParsedArgs.command args) (ParsedArgs.configFile args)
    json (ParsedArgs.env args) (ParsedArgs.parallel args)
    (ParsedArgs.bail args) (ParsedArgs.timeout args) (ParsedArgs.verbose args)
    (ParsedArgs.help args).

Definition with_env (env : string) (args : ParsedArgs.t) : ParsedArgs.t :=
  ParsedArgs.mk (ParsedArgs.command args) (ParsedArgs.configFile args)
    (ParsedArgs.json args) env (ParsedArgs.parallel args)
    (ParsedArgs.bail args) (ParsedArgs.timeout args) (ParsedArgs.verbose args)
    (ParsedArgs.help args).

Definition with_parallel (parallel : bool) (args : ParsedArgs.t) : ParsedArgs.t :=
  ParsedArgs.mk (ParsedArgs.command args) (ParsedArgs.configFile args)
    (ParsedArgs.json args) (ParsedArgs.env args) parallel
    (ParsedArgs.bail args) (ParsedArgs.timeout args) (ParsedArgs.verbose args)
    (ParsedArgs.help args).

Definition with_timeout (timeout : Z) (args : ParsedArgs.t) : ParsedArgs.t :=
  ParsedArgs.mk (ParsedArgs.command args) (ParsedArgs.configFile args)
    (ParsedArgs.json args) (ParsedArgs.env args) (ParsedArgs.parallel args)
    (ParsedArgs.bail args) timeout (ParsedArgs.verbose args)
    (ParsedArgs.help args).

Definition with_verbose (verbose : bool) (args : ParsedArgs.t) : ParsedArgs.t :=
  ParsedArgs.mk (ParsedArgs.command args) (ParsedArgs.configFile args)
    (ParsedArgs.json args) (ParsedArgs.env args) (ParsedArgs.parallel args)
    (ParsedArgs.bail args) (ParsedArgs.timeout args) verbose
    (ParsedArgs.help args).

Definition with_help (help : bool) (args : ParsedArgs.t) : ParsedArgs.t :=
  ParsedArgs.mk (ParsedArgs.command args) (ParsedArgs.configFile args)
    (ParsedArgs.json args) (ParsedArgs.env args) (ParsedArgs.parallel args)
    (ParsedArgs.bail args) (ParsedArgs.timeout args) (ParsedArgs.verbose args)
    help.

(** The [default] case of the [switch]: an argument that does not start
    with a dash is the command, then the config file, then dropped. *)
Definition parseArgs_positional (arg : string) (result : ParsedArgs.t) (positional : nat)
  : ParsedArgs.t * nat :=
  if negb (startsWith arg "-") then
    (if Nat.eqb positional 0 then with_command arg result
     else if Nat.eqb positional 1 then with_configFile (Some arg) result
     else result,
     S positional)
  else (result, positional).

(** The loop of [parseArgs] over the arguments that are left: [--env]
    and [--timeout] take the next argument with [argv[++i]], which is
    [undefined] past the end. *)
Fixpoint parseArgs_loop (argv : list string) (result : ParsedArgs.t) (positional : nat)
  : ParsedArgs.t * nat :=
  match argv with
  | [] => (result, positional)
  | arg :: rest =>
      match arg_kind arg with
      | AHelp => parseArgs_loop rest (with_help true result) positional
      | AJson => parseArgs_loop rest (with_json true result) positional
      | AParallel => parseArgs_loop rest (with_parallel true result) positional
      | ABail => parseArgs_loop rest (with_bail true result) positional
      | AVerbose => parseArgs_loop rest (with_verbose true result) positional
      | AEnv =>
          match rest with
          | [] => (with_env (str_or None "default") result, positional)
          | value :: rest =>
              parseArgs_loop rest (with_env (str_or (Some value) "default") result)
                positional
          end
      | ATimeout =>
          match rest with
          | [] => (with_timeout (num_or (parseInt None) 10000) result, positional)
          | value :: rest =>
              parseArgs_loop rest
                (with_timeout (num_or (parseInt (Some value)) 10000) result) positional
          end
      | AOther =>
          let '(result, positional) := parseArgs_positional arg result positional in
          parseArgs_loop rest result positional
      end
  end.

Definition parseArgs_initial : ParsedArgs.t :=
  ParsedArgs.mk "" None false "default" false false 10000 false false.

Definition parseArgs (argv : list string) : ParsedArgs.t :=
  fst (parseArgs_loop argv parseArgs_initial 0%nat).

(** An argument list in which every [--env] and [--timeout] is followed
    by its value. *)
Inductive complete_args : list string -> Prop :=
| complete_nil : complete_args []
| complete_flag arg rest :
    arg_kind arg <> AEnv -> arg_kind arg <> ATimeout ->
    complete_args rest -> complete_args (arg :: rest)
| complete_value arg value rest :
    arg_kind arg = AEnv \/ arg_kind arg = ATimeout ->
    complete_args rest -> complete_args (arg :: value :: rest).

(** An argument that takes no value: neither [--env] nor [--timeout]. *)
Definition plain_arg (arg : string) : bool :=
  match arg_kind arg with
  | AEnv | ATimeout => false
  | _ => true
  end.

(** ** [cmdValidate] *)

(** A test as it is written in a config file, where a field may be
    missing. *)
Module AuthoredTest.
Record t : Type := mk {
  name : option string;
  path : option string;
  expect : option Expect.t;
}.
End AuthoredTest.

(** The loop of [cmdValidate] over the tests that are left, [warnings]
    counted so far: [None] when the process exits with code 1 for a test
    without a path. *)
Fixpoint cmdValidate_loop (tests : list AuthoredTest.t) (warnings : nat) : option nat :=
  match tests with
  | [] => Some warnings
  | test :: rest =>
      let warnings :=
        if negb (str_truthy (AuthoredTest.name test)) then S warnings else warnings in
      if negb (str_truthy (AuthoredTest.path test)) then None
      else
        let warnings :=
          match AuthoredTest.expect test with
          | None => S warnings
          | Some _ => warnings
          end in
        cmdValidate_loop rest warnings
  end.

(** What [cmdValidate] reports under [--json] for a valid config. *)
Module Validation.
Record t : Type := mk {
  valid : bool;
  tests : nat;
  warnings : nat;
}.
End Validation.

(** [cmdValidate] for the arguments [args]. [loadConfig] reads the tests
    of a file, with [None] when it ends the process (no such file, no
    [tests] array) or throws; the result is the report, if one is
    printed, and the exit code. *)
Definition cmdValidate (loadConfig : string -> option (list AuthoredTest.t))
    (args : ParsedArgs.t) : option Validation.t * Z :=
  match ParsedArgs.configFile args with
  | None => (None, 1)
  | Some configFile =>
      match loadConfig configFile with
      | None => (None, 1)
      | Some tests =>
          match cmdValidate_loop tests 0%nat with
          | None => (None, 1)
          | Some warnings => (Some (Validation.mk true (length tests) warnings), 0)
          end
      end
  end.

(** ** What is printed *)

(** A line of the console, by what it shows; colours and indentation
    are left out. *)
Inductive Line : Type :=
| ResultLine (passed : bool) (name : string) (responseTime : Z)
| ErrorLine (message : string)
| AssertionLine (passed : bool) (check : string) (detail : option string)
| SummaryLine (total passed failed : nat) (duration : Z)
| AllPassedLine
| FailedLine (failed : nat).

(** [printTestResult]: an error ends the output; the assertions are shown
    for a result that has not passed, and for every result under
    [--verbose]; a detail is shown when it is truthy. *)
Definition printTestResult (result : TestResult.t) (verbose : bool) : list Line :=
  ResultLine (TestResult.passed result) (TestResult.name result)
    (TestResult.responseTime result) ::
  if str_truthy (TestResult.error result)
  then [ErrorLine (default "" (TestResult.error result))]
  else if negb (TestResult.passed result) || verbose
  then map (fun assertion =>
              AssertionLine (Assertion.passed assertion) (Assertion.check assertion)
                (if str_truthy (Assertion.detail assertion)
                 then Assertion.detail assertion else None))
         (TestResult.assertions result)
  else [].

(** [printRunSummary]. *)
Definition printRunSummary (results : list TestResult.t) (duration : Z) : list Line :=
  let total := length results in
  let passed := length (filter (fun r => TestResult.passed r = true) results) in
  let failed := (total - passed)%nat in
  [SummaryLine total passed failed duration;
   if Nat.eqb failed 0 then AllPassedLine else FailedLine failed].

(** * Properties *)

(** ** The assertion evaluator *)

Lemma fold_left_push {A B} (f : A -> B) (l : list A) (acc : list B) :
  fold_left (fun results x => push results (f x)) l acc = acc ++ map f l.
Proof.
  revert acc. induction l as [|x l IH]; intros acc; simpl.
  - by rewrite app_nil_r.
  - rewrite IH. unfold push. by rewrite <- app_assoc.
Qed.

(** [checkAssertions] as the concatenation of its five groups. *)
Lemma checkAssertions_groups (test : TestCase.t) (response : Response.t) :
  checkAssertions test response =
    match Expect.status (TestCase.expect test) with
    | Some expected => [status_check (Response.status response) expected]
    | None => []
    end
    ++ map (fun entry => body_field_check (Response.body response) (fst entry) (snd entry))
         (Object_entries (default [] (Expect.body (TestCase.expect test))))
    ++ map (body_contains_check (Response.bodyRaw response))
         (checked_terms (Expect.bodyContains (TestCase.expect test)))
    ++ map (body_not_contains_check (Response.bodyRaw response))
         (checked_terms (Expect.bodyNotContains (TestCase.expect test)))
    ++ map (fun entry => header_check (Response.headers response) (fst entry) (snd entry))
         (Object_entries (default [] (Expect.headerContains (TestCase.expect test)))).
Proof.
  unfold checkAssertions, checked_terms.
  destruct (TestCase.expect test) as [st bd bc bnc hc]; simpl.
  destruct hc as [hc|]; simpl; rewrite ?fold_left_push;
    destruct bnc as [bnc|]; simpl; try destruct (terms_truthy bnc);
    rewrite ?fold_left_push;
    destruct bc as [bc|]; simpl; try destruct (terms_truthy bc);
    rewrite ?fold_left_push;
    destruct bd as [bd|]; simpl; rewrite ?fold_left_push;
    destruct st as [st|]; unfold push; simpl;
    rewrite ?app_nil_r, <- ?app_assoc; reflexivity.
Qed.

Lemma insert_index_perm {A} (n : N) (entry : string * A) sorted :
  map snd (insert_index n entry sorted) ≡ₚ entry :: map snd sorted.
Proof.
  induction sorted as [|[m other] sorted IH]; simpl; [reflexivity|].
  destruct (n <? m)%N; simpl; [reflexivity|].
  rewrite IH. apply Permutation_swap.
Qed.

(** [Object.entries] yields every declared field once. *)
Lemma Object_entries_perm {A} (declared : list (string * A)) :
  Object_entries declared ≡ₚ declared.
Proof.
  unfold Object_entries. induction declared as [|entry rest IH]; simpl; [reflexivity|].
  destruct (array_index (fst entry)).
  - rewrite insert_index_perm. simpl. by rewrite IH.
  - rewrite <- Permutation_middle. by rewrite IH.
Qed.

(** [Object.entries] keeps the order of fields whose names are no array
    indices. *)
Lemma Object_entries_named {A} (declared : list (string * A)) :
  Forall (fun entry => array_index (fst entry) = None) declared ->
  Object_entries declared = declared.
Proof.
  intros Hnamed.
  assert (H : index_entries declared = [] /\ named_entries declared = declared).
  { induction Hnamed as [|entry rest Hentry _ [IH1 IH2]]; simpl; [auto|].
    rewrite Hentry. split; [exact IH1 | by rewrite IH2]. }
  unfold Object_entries. destruct H as [-> ->]. reflexivity.
Qed.

(** C7, as stated, fails. Two body fields declared as [b], then [1]:
    the field [1] is checked first. *)
Lemma checkAssertions_declared_order :
  let test :=
    demo_test "t" "/t"
      (Expect.mk None (Some [("b", JNum 1); ("1", JNum 2)]) None None None) in
  let response := Response.mk 200 ∅ (JObj [("1", JNum 2); ("b", JNum 1)]) "" in
  checkAssertions_throws test response = false /\
  map Assertion.check (checkAssertions test response) = ["body.1 === 2"; "body.b === 1"].
Proof. split; reflexivity. Qed.

(** C7, amended. For every test and every response on which no header
    check throws, the outcomes of [checkAssertions] are, in this order:
    the status check (when a status is expected); one body-field check
    per field of [expect.body], in the order in which [Object.entries]
    enumerates the fields; one body-contains check per term (the one term
    of a string that is not empty, every term of an array); the
    body-not-contains checks likewise; one header check per field of
    [expect.headerContains], again in the order of [Object.entries]. That
    order holds every declared field once, and it is the declared order
    for fields whose names are no array indices. Which checks are made,
    and their descriptions, do not depend on the response: a failed check
    stops none of the later ones. *)
Theorem checkAssertions_order (test : TestCase.t) (response : Response.t) :
  checkAssertions_throws test response = false ->
  let expect := TestCase.expect test in
  let terms_of (terms : option Terms) : list string :=
    match terms with
    | Some (ManyTerms many) => many
    | Some (OneTerm one) => if String.eqb one "" then [] else [one]
    | None => []
    end in
  let body_fields := default [] (Expect.body expect) in
  let header_fields := default [] (Expect.headerContains expect) in
  checkAssertions test response =
    match Expect.status expect with
    | Some expected => [status_check (Response.status response) expected]
    | None => []
    end
    ++ map (fun entry => body_field_check (Response.body response) (fst entry) (snd entry))
         (Object_entries body_fields)
    ++ map (body_contains_check (Response.bodyRaw response))
         (terms_of (Expect.bodyContains expect))
    ++ map (body_not_contains_check (Response.bodyRaw response))
         (terms_of (Expect.bodyNotContains expect))
    ++ map (fun entry => header_check (Response.headers response) (fst entry) (snd entry))
         (Object_entries header_fields)
  /\ (forall response' : Response.t,
       map Assertion.check (checkAssertions test response') =
       map Assertion.check (checkAssertions test response))
  /\ Object_entries body_fields ≡ₚ body_fields
  /\ Object_entries header_fields ≡ₚ header_fields
  /\ (Forall (fun entry => array_index (fst entry) = None) body_fields ->
      Object_entries body_fields = body_fields)
  /\ (Forall (fun entry => array_index (fst entry) = None) header_fields ->
      Object_entries header_fields = header_fields).
Proof.
  intros _ expect terms_of body_fields header_fields.
  assert (Hterms : forall terms, checked_terms terms = terms_of terms).
  { intros [[one|many]|]; simpl; try reflexivity.
    by destruct (String.eqb one ""). }
  split; [|split; [|split; [|split; [|split]]]].
  - rewrite checkAssertions_groups, !Hterms. reflexivity.
  - intros response'. rewrite !checkAssertions_groups.
    rewrite !map_app, !map_map. simpl.
    destruct (Expect.status (TestCase.expect test)); reflexivity.
  - apply Object_entries_perm.
  - apply Object_entries_perm.
  - apply Object_entries_named.
  - apply Object_entries_named.
Qed.

Lemma checkAssertions_order_witness :
  let test :=
    demo_test "t" "/t"
      (Expect.mk (Some 200) (Some [("b", JNum 1); ("1", JNum 2)]) (Some (OneTerm "id"))
         None (Some [("Content-Type", "json")])) in
  let response := Response.mk 200 ∅ (JObj [("b", JNum 1)]) "id" in
  map Assertion.check (checkAssertions test response) =
    ["Status is 200"; "body.1 === 2"; "body.b === 1";
     "Body contains " +:+ String dquote ("id" +:+ String dquote "");
     "Header Content-Type contains " +:+ String dquote ("json" +:+ String dquote "")].
Proof.
  intros test response.
  destruct (checkAssertions_order test response eq_refl) as [-> _]. reflexivity.
Defined.

(** ** The test runner *)

Section RunnerFacts.

Context {World : Type}.
Variable now : World -> Z.
Variable send : Request.t -> World -> World.
Variable settle : Request.t -> World -> Settled * World.
Variable JSON_parse : string -> option JSON.

(** [runTest] is its first half followed by its second half. *)
Lemma runTest_split test baseUrl envHeaders timeout (w : World) :
  runTest now send settle JSON_parse test baseUrl envHeaders timeout w =
  let '(p, w1) := runTest_begin now send test baseUrl envHeaders timeout w in
  runTest_resume now settle JSON_parse p w1.
Proof.
  unfold runTest, runTest_begin, runTest_resume, makeRequest. simpl.
  destruct (settle _ _) as [s w']. reflexivity.
Qed.

(** A result of [runTest] is a [runTest_result]. *)
Lemma runTest_is_result test baseUrl envHeaders timeout (w : World) :
  exists start outcome finish,
    fst (runTest now send settle JSON_parse test baseUrl envHeaders timeout w) =
    runTest_result test start outcome finish.
Proof.
  unfold runTest. destruct (makeRequest _ _ _ _ _ _ _ _ _) as [outcome w'].
  simpl. eauto.
Qed.

Lemma runTest_resume_is_result p (w : World) :
  exists outcome finish,
    fst (runTest_resume now settle JSON_parse p w) =
    runTest_result (pending_test p) (pending_start p) outcome finish.
Proof.
  unfold runTest_resume. destruct (settle _ _) as [s w']. simpl. eauto.
Qed.

(** A result with an error has not passed. *)
Lemma runTest_result_error test start outcome finish :
  TestResult.error (runTest_result test start outcome finish) <> None ->
  TestResult.passed (runTest_result test start outcome finish) = false.
Proof.
  unfold runTest_result. destruct outcome as [response|message]; simpl; [|congruence].
  destruct (checkAssertions_throws test response); simpl; congruence.
Qed.

End RunnerFacts.

(** C1. A test that declares no expectation passes whenever its request
    is answered: if [makeRequest] resolves to a response, whatever its
    status, the result of [runTest] has no assertion and has passed. *)
Theorem runTest_no_expectations {World : Type} (now : World -> Z)
    (send : Request.t -> World -> World) (settle : Request.t -> World -> Settled * World)
    (JSON_parse : string -> option JSON)
    (test : TestCase.t) (baseUrl : string) (envHeaders : gmap string string)
    (timeout : Z) (w : World) (response : Response.t) :
  TestCase.expect test = no_expectations ->
  fst (makeRequest send settle JSON_parse (runTest_url test baseUrl)
         (runTest_method test) (runTest_headers test envHeaders)
         (TestCase.body test) timeout w) = inl response ->
  let result := fst (runTest now send settle JSON_parse test baseUrl envHeaders timeout w) in
  TestResult.assertions result = [] /\
  TestResult.passed result = true /\
  TestResult.error result = None /\
  TestResult.status result = Some (Response.status response).
Proof.
  intros Hexpect Hresp. unfold runTest.
  destruct (makeRequest _ _ _ _ _ _ _ _ _) as [outcome w'].
  simpl in Hresp. subst outcome.
  unfold runTest_result, checkAssertions_throws, checkAssertions.
  rewrite Hexpect. simpl. auto.
Qed.

Lemma runTest_no_expectations_witness :
  let test := demo_test "health" "/health" no_expectations in
  let result :=
    fst (runTest demo_now demo_send demo_settle demo_parse test
           "http://localhost" ∅ 10000 0%nat) in
  TestResult.assertions result = [] /\
  TestResult.passed result = true /\
  TestResult.error result = None /\
  TestResult.status result = Some 200.
Proof.
  apply (runTest_no_expectations demo_now demo_send demo_settle demo_parse
           (demo_test "health" "/health" no_expectations) "http://localhost" ∅ 10000 0%nat
           (Response.mk 200 (responseHeaders_of [("content-type", HOne "text/plain")])
              (JStr "ok") "ok")).
  - reflexivity.
  - reflexivity.
Defined.

(** C2. A request that fails at the transport level. If the request of a
    test settles by an error or by a timeout, then [runTest] returns a
    result whose [error] is the message of the failure (the message of
    the error, or the text made from the timeout), whose [status] is
    null, whose [assertions] are empty and which has not passed. *)
Theorem runTest_transport_failure {World : Type} (now : World -> Z)
    (send : Request.t -> World -> World) (settle : Request.t -> World -> Settled * World)
    (JSON_parse : string -> option JSON)
    (test : TestCase.t) (baseUrl : string) (envHeaders : gmap string string)
    (timeout : Z) (w : World) (s : Settled) :
  let req :=
    makeRequest_request (runTest_url test baseUrl) (runTest_method test)
      (runTest_headers test envHeaders) (TestCase.body test) timeout in
  fst (settle req (send req w)) = s ->
  (forall res, s <> Responded res) ->
  let result := fst (runTest now send settle JSON_parse test baseUrl envHeaders timeout w) in
  TestResult.error result =
    Some match s with
         | Errored message => message
         | _ => "Timeout after " +:+ Number_toString timeout +:+ "ms"
         end /\
  TestResult.status result = None /\
  TestResult.assertions result = [] /\
  TestResult.passed result = false.
Proof.
  intros req Hs Hfail. unfold runTest, makeRequest. fold req.
  destruct (settle req (send req w)) as [s' w']. simpl in Hs. subst s'.
  destruct s as [res|message|]; simpl.
  - by destruct (Hfail res).
  - auto.
  - auto.
Qed.

Lemma runTest_transport_failure_witness :
  let test := demo_test "unreachable" "/health" (Expect.mk (Some 200) None None None None) in
  let result :=
    fst (runTest demo_now demo_send demo_settle demo_parse test
           "http://down.example" ∅ 100 0%nat) in
  TestResult.error result = Some "connect ECONNREFUSED" /\
  TestResult.status result = None /\
  TestResult.assertions result = [] /\
  TestResult.passed result = false.
Proof.
  apply (runTest_transport_failure demo_now demo_send demo_settle demo_parse
           (demo_test "unreachable" "/health" (Expect.mk (Some 200) None None None None))
           "http://down.example" ∅ 100 0%nat (Errored "connect ECONNREFUSED")).
  - reflexivity.
  - intros res. discriminate.
Defined.

(** ** The suite orchestrator: sequential mode *)

Section SequentialFacts.

Context {World : Type}.
Variable now : World -> Z.
Variable send : Request.t -> World -> World.
Variable settle : Request.t -> World -> Settled * World.
Variable JSON_parse : string -> option JSON.
Variables (baseUrl : string) (envHeaders : gmap string string) (timeout : Z).

#[local] Abbreviation run_seq bail :=
  (run_sequential now send settle JSON_parse bail baseUrl envHeaders timeout).

(** The results collected so far stay in front. *)
Lemma run_sequential_acc bail tests acc (w : World) :
  run_seq bail tests acc w =
  (acc ++ fst (run_seq bail tests [] w), snd (run_seq bail tests [] w)).
Proof.
  revert acc w. induction tests as [|test rest IH]; intros acc w; simpl.
  - by rewrite app_nil_r.
  - destruct (runTest _ _ _ _ _ _ _ _ _) as [r w1].
    destruct (bail && negb (TestResult.passed r)); [reflexivity|].
    rewrite (IH (push acc r)), (IH (push [] r)). unfold push. simpl.
    by rewrite <- app_assoc.
Qed.

(** Without [--bail] every test gets its result. *)
Lemma run_sequential_all tests (w : World) :
  Forall2 result_of tests (fst (run_seq false tests [] w)).
Proof.
  revert w. induction tests as [|test rest IH]; intros w; simpl.
  - constructor.
  - pose proof (runTest_is_result now send settle JSON_parse test baseUrl envHeaders timeout w)
      as (start & outcome & finish & Hr).
    destruct (runTest _ _ _ _ _ _ _ _ _) as [r w1]. simpl in Hr.
    rewrite run_sequential_acc. simpl. constructor; [|apply IH].
    exists start, outcome, finish. exact Hr.
Qed.

(** With [--bail] the results are those of the run without it, up to and
    including the first one that has not passed. *)
Lemma run_sequential_bail tests (w : World) :
  let full := fst (run_seq false tests [] w) in
  fst (run_seq true tests [] w) = take (stop_index full) full.
Proof.
  revert w. induction tests as [|test rest IH]; intros w; simpl.
  - reflexivity.
  - destruct (runTest _ _ _ _ _ _ _ _ _) as [r w1].
    rewrite (run_sequential_acc false). simpl.
    destruct (TestResult.passed r) eqn:Hp; simpl.
    + rewrite (run_sequential_acc true). simpl. f_equal. apply IH.
    + reflexivity.
Qed.

Lemma run_sequential_results bail tests (w : World) :
  Forall (fun r => exists test, result_of test r) (fst (run_seq bail tests [] w)).
Proof.
  revert w. induction tests as [|test rest IH]; intros w; simpl.
  - constructor.
  - pose proof (runTest_is_result now send settle JSON_parse test baseUrl envHeaders timeout w)
      as (start & outcome & finish & Hr).
    destruct (runTest _ _ _ _ _ _ _ _ _) as [r w1]. simpl in Hr.
    assert (Hres : exists t, result_of t r) by (exists test, start, outcome, finish; exact Hr).
    destruct (bail && negb (TestResult.passed r)).
    + simpl. repeat constructor. exact Hres.
    + rewrite run_sequential_acc. simpl. constructor; [exact Hres | apply IH].
Qed.

End SequentialFacts.

Lemma stop_index_le results : (stop_index results <= length results)%nat.
Proof.
  induction results as [|r rest IH]; simpl; [lia|].
  destruct (TestResult.passed r); simpl; lia.
Qed.

(** [stop_index] is the 1-based position of the first result that has
    not passed, and the number of results when there is none. *)
Lemma stop_index_spec results :
  (Forall (fun r => TestResult.passed r = true) results /\
   stop_index results = length results) \/
  (exists i r,
     stop_index results = S i /\
     results !! i = Some r /\ TestResult.passed r = false /\
     Forall (fun r => TestResult.passed r = true) (take i results)).
Proof.
  induction results as [|r rest IH]; simpl.
  - left. split; [constructor | reflexivity].
  - destruct (TestResult.passed r) eqn:Hp.
    + destruct IH as [[Hall Hlen] | (i & r' & Hi & Hr' & Hfail & Hbefore)].
      * left. split; [by constructor | by rewrite Hlen].
      * right. exists (S i), r'. simpl. repeat split; auto.
    + right. exists 0%nat, r. simpl. repeat split; auto.
Qed.

(** C3. Sequential mode with [--bail]. Let [full] be the results of the
    tests of the config run one after the other from the same world,
    none left out. The run completes, and its report holds the first
    [stop_index full] results of [full]: as many as the 1-based position
    of the first test whose result has not passed, or one per test when
    every result has passed. The tests after that position have no
    entry in the report. *)
Theorem cmdRun_sequential_bail {World : Type} (now : World -> Z)
    (send : Request.t -> World -> World) (settle : Request.t -> World -> Settled * World)
    (JSON_parse : string -> option JSON)
    (args : ParsedArgs.t) (config : SmokeConfig.t) (order : list nat) (w : World) :
  ParsedArgs.parallel args = false ->
  ParsedArgs.bail args = true ->
  let env := cmdRun_env args config in
  let tests := SmokeConfig.tests config in
  let full :=
    fst (run_sequential now send settle JSON_parse false (cmdRun_baseUrl env)
           (cmdRun_envHeaders env) (ParsedArgs.timeout args) tests [] w) in
  Forall2 result_of tests full /\
  (exists run,
     fst (cmdRun now send settle JSON_parse args config order w) = Some run /\
     Report.results (Run.report run) = take (stop_index full) full /\
     length (Report.results (Run.report run)) = stop_index full /\
     Report.total (Run.report run) = stop_index full) /\
  ((Forall (fun r => TestResult.passed r = true) full /\
    stop_index full = length tests) \/
   (exists i r,
      stop_index full = S i /\
      full !! i = Some r /\ TestResult.passed r = false /\
      Forall (fun r => TestResult.passed r = true) (take i full))).
Proof.
  intros Hseq Hbail env tests full.
  assert (Hfull : Forall2 result_of tests full) by apply run_sequential_all.
  split; [exact Hfull|]. split.
  - unfold cmdRun. rewrite Hseq, Hbail. fold env tests.
    pose proof (run_sequential_bail now send settle JSON_parse (cmdRun_baseUrl env)
                  (cmdRun_envHeaders env) (ParsedArgs.timeout args) tests w) as Hb.
    simpl in Hb. fold full in Hb.
    destruct (run_sequential _ _ _ _ true _ _ _ _ _ _) as [results w1].
    simpl in Hb. subst results. simpl.
    eexists. split; [reflexivity|]. simpl.
    pose proof (stop_index_le full).
    rewrite length_take. repeat split; lia.
  - destruct (stop_index_spec full) as [[Hall Hlen] | Hfirst].
    + left. split; [exact Hall|]. rewrite Hlen. symmetry.
      eapply Forall2_length. exact Hfull.
    + right. exact Hfirst.
Qed.

Lemma cmdRun_sequential_bail_witness :
  let config :=
    SmokeConfig.mk None
      [demo_test "a" "/a" no_expectations;
       demo_test "b" "/down" no_expectations;
       demo_test "c" "/c" no_expectations] in
  exists run,
    fst (cmdRun demo_now demo_send demo_settle demo_parse (demo_args false true)
           config [] 0%nat) = Some run /\
    length (Report.results (Run.report run)) = 2%nat.
Proof.
  intros config.
  destruct (cmdRun_sequential_bail demo_now demo_send demo_settle demo_parse
              (demo_args false true) config [] 0%nat eq_refl eq_refl)
    as (_ & (run & Hrun & _ & Hlen & _) & _).
  exists run. split; [exact Hrun|]. rewrite Hlen. reflexivity.
Defined.

(** ** The suite orchestrator: parallel mode *)

Lemma Promise_all_fulfilled {A} (slots : list (option A)) :
  (forall i, (i < length slots)%nat -> exists x, slots !! i = Some (Some x)) ->
  exists xs, Promise_all slots = Some xs /\ slots = map Some xs.
Proof.
  induction slots as [|slot rest IH]; intros Hall; simpl.
  - exists []. auto.
  - destruct (Hall 0%nat) as [x Hx]; [simpl; lia|]. simpl in Hx.
    injection Hx as ->.
    destruct IH as (xs & Hxs & Hrest).
    { intros i Hi. apply (Hall (S i)). simpl. lia. }
    exists (x :: xs). rewrite Hxs. simpl. by rewrite <- Hrest.
Qed.

Section ParallelFacts.

Context {World : Type}.
Variable now : World -> Z.
Variable send : Request.t -> World -> World.
Variable settle : Request.t -> World -> Settled * World.
Variable JSON_parse : string -> option JSON.

#[local] Abbreviation resume := (resume_all now settle JSON_parse).

(** The pending calls are those of the tests, in their order. *)
Lemma begin_all_tests baseUrl envHeaders timeout tests (w : World) :
  map pending_test (fst (begin_all now send baseUrl envHeaders timeout tests w)) = tests.
Proof.
  revert w. induction tests as [|test rest IH]; intros w; simpl; [reflexivity|].
  specialize (IH (send (makeRequest_request (runTest_url test baseUrl)
                          (runTest_method test) (runTest_headers test envHeaders)
                          (TestCase.body test) timeout) w)).
  unfold runTest_begin.
  destruct (begin_all _ _ _ _ _ _ _) as [ps w1]. simpl in *. by rewrite IH.
Qed.

Lemma resume_all_length pending order slots (w : World) :
  length (fst (resume pending order slots w)) = length slots.
Proof.
  revert slots w. induction order as [|i order IH]; intros slots w; simpl; [reflexivity|].
  destruct (pending !! i) as [p|]; [|apply IH].
  destruct (slots !! i) as [[r|]|]; try apply IH.
  destruct (runTest_resume _ _ _ _ _) as [r w1].
  rewrite IH. apply length_insert.
Qed.

Lemma resume_all_ok pending order slots (w : World) :
  slots_ok pending slots -> slots_ok pending (fst (resume pending order slots w)).
Proof.
  revert slots w. induction order as [|i order IH]; intros slots w Hok; simpl; [exact Hok|].
  destruct (pending !! i) as [p|] eqn:Hp; [|by apply IH].
  destruct (slots !! i) as [[r|]|] eqn:Hs; try by apply IH.
  pose proof (runTest_resume_is_result now settle JSON_parse p w) as (outcome & finish & Hr).
  destruct (runTest_resume _ _ _ _ _) as [r w1]. simpl in Hr.
  apply IH. intros j r' Hj.
  destruct (decide (i = j)) as [<-|Hne].
  - rewrite list_lookup_insert_eq in Hj by (eapply lookup_lt_Some; exact Hs).
    injection Hj as <-. exists p. split; [exact Hp|].
    exists (pending_start p), outcome, finish. exact Hr.
  - rewrite list_lookup_insert_ne in Hj by exact Hne. by apply Hok.
Qed.

(** A fulfilled slot stays as it is. *)
Lemma resume_all_keeps pending order slots (w : World) i r :
  slots !! i = Some (Some r) ->
  fst (resume pending order slots w) !! i = Some (Some r).
Proof.
  revert slots w. induction order as [|j order IH]; intros slots w Hi; simpl; [exact Hi|].
  destruct (pending !! j) as [p|]; [|by apply IH].
  destruct (slots !! j) as [[r'|]|] eqn:Hs; try by apply IH.
  destruct (runTest_resume _ _ _ _ _) as [r' w1].
  apply IH. rewrite list_lookup_insert_ne; [exact Hi|].
  intros ->. congruence.
Qed.

(** Every call named in the order gets its slot fulfilled. *)
Lemma resume_all_fills pending order slots (w : World) i :
  length slots = length pending ->
  i ∈ order -> (i < length pending)%nat ->
  exists r, fst (resume pending order slots w) !! i = Some (Some r).
Proof.
  revert slots w. induction order as [|j order IH]; intros slots w Hlen Hin Hi.
  - by apply elem_of_nil in Hin.
  - simpl. destruct (decide (i = j)) as [<-|Hne].
    + destruct (lookup_lt_is_Some_2 pending i Hi) as [p Hp]. rewrite Hp.
      destruct (lookup_lt_is_Some_2 slots i) as [slot Hs]; [lia|]. rewrite Hs.
      destruct slot as [r|].
      * exists r. by apply resume_all_keeps.
      * destruct (runTest_resume _ _ _ _ _) as [r w1].
        exists r. apply resume_all_keeps.
        apply list_lookup_insert_eq. lia.
    + apply elem_of_cons in Hin as [Heq|Hin]; [done|].
      destruct (pending !! j) as [p|]; [|by apply IH].
      destruct (slots !! j) as [[r'|]|] eqn:Hs; try by apply IH.
      destruct (runTest_resume _ _ _ _ _) as [r' w1].
      apply IH; [by rewrite length_insert | exact Hin | exact Hi].
Qed.

(** When every call settles, [Promise.all] is fulfilled with one result
    per test, in the order of the tests. *)
Lemma run_parallel_all baseUrl envHeaders timeout tests order (w : World) :
  order ≡ₚ seq 0 (length tests) ->
  exists results,
    fst (run_parallel now send settle JSON_parse baseUrl envHeaders timeout tests order w)
      = Some results /\
    Forall2 result_of tests results.
Proof.
  intros Hperm. unfold run_parallel.
  pose proof (begin_all_tests baseUrl envHeaders timeout tests w) as Htests.
  destruct (begin_all _ _ _ _ _ _ _) as [pending w1]. simpl in Htests.
  assert (Hlen : length pending = length tests)
    by (rewrite <- Htests; by rewrite length_map).
  set (slots0 := replicate (length pending) None).
  pose proof (resume_all_length pending order slots0 w1) as Hlen'.
  pose proof (resume_all_ok pending order slots0 w1) as Hok.
  pose proof (fun i => resume_all_fills pending order slots0 w1 i) as Hfill.
  destruct (resume pending order slots0 w1) as [slots w2]. simpl in *.
  assert (Hlen0 : length slots0 = length pending) by apply length_replicate.
  destruct (Promise_all_fulfilled slots) as (results & Hall & Hslots).
  { intros i Hi. apply Hfill; [exact Hlen0| |lia].
    rewrite Hperm. apply elem_of_seq. lia. }
  exists results. split; [exact Hall|].
  apply Forall2_same_length_lookup_2.
  - rewrite <- Hlen, <- Hlen0, <- Hlen', Hslots. by rewrite length_map.
  - intros i test r Ht Hr.
    destruct (Hok) with (i := i) (r := r) as (p & Hp & Hres).
    { intros j r' Hj. unfold slots0 in Hj.
      apply lookup_replicate in Hj as [Hj _]. discriminate. }
    { rewrite Hslots, list_lookup_fmap, Hr. reflexivity. }
    rewrite <- Htests, list_lookup_fmap, Hp in Ht. simpl in Ht.
    injection Ht as <-. exact Hres.
Qed.

Lemma run_parallel_results baseUrl envHeaders timeout tests order (w : World) results :
  fst (run_parallel now send settle JSON_parse baseUrl envHeaders timeout tests order w)
    = Some results ->
  Forall (fun r => exists test, result_of test r) results.
Proof.
  unfold run_parallel.
  destruct (begin_all _ _ _ _ _ _ _) as [pending w1].
  pose proof (resume_all_ok pending order (replicate (length pending) None) w1) as Hok.
  destruct (resume _ _ _ _) as [slots w2]. simpl in *. intros Hall.
  assert (Hslots : forall i r, results !! i = Some r -> slots !! i = Some (Some r)).
  { clear Hok. revert results Hall.
    induction slots as [|slot rest IH]; intros results Hall; simpl in Hall.
    - injection Hall as <-. intros i r Hi. by rewrite lookup_nil in Hi.
    - destruct slot as [x|]; [|discriminate].
      destruct (Promise_all rest) as [xs|]; [|discriminate].
      injection Hall as <-. intros [|i] r Hi; simpl in *; [congruence|].
      by apply (IH xs). }
  apply Forall_lookup_2. intros i r Hi.
  destruct Hok with (i := i) (r := r) as (p & _ & Hres).
  - intros j r' Hj. apply lookup_replicate in Hj as [Hj _]. discriminate.
  - by apply Hslots.
  - by exists (pending_test p).
Qed.

End ParallelFacts.

Lemma result_of_names tests results :
  Forall2 result_of tests results ->
  map TestResult.name results = map TestCase.name tests.
Proof.
  induction 1 as [|test r tests results (start & outcome & finish & ->) _ IH]; simpl;
    [reflexivity|].
  rewrite IH. unfold runTest_result.
  destruct outcome as [response|message]; [|reflexivity].
  by destruct (checkAssertions_throws test response).
Qed.



(** ** The exit code *)

Lemma some_not_passed results :
  existsb (fun r => negb (TestResult.passed r)) results = true <->
  Exists (fun r => TestResult.passed r = false) results.
Proof.
  rewrite existsb_exists, Exists_exists. split.
  - intros (r & Hin & Hr). exists r. split; [by apply list_elem_of_In|].
    by destruct (TestResult.passed r).
  - intros (r & Hin & Hr). exists r. split; [by apply list_elem_of_In|].
    by rewrite Hr.
Qed.

Lemma failed_count results :
  length (filter (fun r => TestResult.passed r = false) results) = 0%nat <->
  Forall (fun r => TestResult.passed r = true) results.
Proof.
  induction results as [|r results IH]; simpl.
  - split; [constructor | reflexivity].
  - rewrite filter_cons. destruct (TestResult.passed r) eqn:Hp.
    + destruct (decide (true = false)) as [?|_]; [discriminate|].
      rewrite IH. split; [by constructor | by inversion 1].
    + destruct (decide (false = false)) as [_|?]; [|done].
      simpl. split; [discriminate|]. inversion 1. congruence.
Qed.

(** C5. Exit code. For every run that completes, the exit code is 0 when
    no result of the report has failed or carries a transport error
    (which holds for a config without tests) and 1 otherwise; and it is 0
    exactly when the report counts no failed test. *)
Theorem cmdRun_exitCode {World : Type} (now : World -> Z)
    (send : Request.t -> World -> World) (settle : Request.t -> World -> Settled * World)
    (JSON_parse : string -> option JSON)
    (args : ParsedArgs.t) (config : SmokeConfig.t) (order : list nat) (w : World)
    (run : Run.t) :
  fst (cmdRun now send settle JSON_parse args config order w) = Some run ->
  let results := Report.results (Run.report run) in
  (Run.exitCode run = 0 <->
   Forall (fun r => TestResult.passed r = true /\ TestResult.error r = None) results) /\
  (Run.exitCode run <> 0 <->
   Exists (fun r => TestResult.passed r = false \/ TestResult.error r <> None) results) /\
  (Run.exitCode run = 0 \/ Run.exitCode run = 1) /\
  (Run.exitCode run = 0 <-> Report.failed (Run.report run) = 0%nat).
Proof.
  unfold cmdRun.
  set (env := cmdRun_env args config).
  intros Hrun.
  assert (Hgen : exists results w1,
    Forall (fun r => exists test, result_of test r) results /\
    run = Run.mk
            (Report.mk (ParsedArgs.env args) (cmdRun_baseUrl env) (length results)
               (length (filter (fun r => TestResult.passed r = true) results))
               (length (filter (fun r => TestResult.passed r = false) results))
               (now w1 - now w) results)
            (if existsb (fun r => negb (TestResult.passed r)) results then 1 else 0)).
  { destruct (ParsedArgs.parallel args).
    - pose proof (run_parallel_results now send settle JSON_parse (cmdRun_baseUrl env)
                    (cmdRun_envHeaders env) (ParsedArgs.timeout args)
                    (SmokeConfig.tests config) order w) as Hres.
      destruct (run_parallel _ _ _ _ _ _ _ _ _ _) as [[results|] w1]; simpl in *;
        [|discriminate].
      injection Hrun as <-. exists results, w1. split; [by apply Hres | reflexivity].
    - pose proof (run_sequential_results now send settle JSON_parse (cmdRun_baseUrl env)
                    (cmdRun_envHeaders env) (ParsedArgs.timeout args) (ParsedArgs.bail args)
                    (SmokeConfig.tests config) w) as Hres.
      destruct (run_sequential _ _ _ _ _ _ _ _ _ _ _) as [results w1]; simpl in *.
      injection Hrun as <-. exists results, w1. split; [exact Hres | reflexivity]. }
  clear Hrun. destruct Hgen as (results & w1 & Hres & ->). simpl. clear w1.
  assert (Herr : Forall (fun r => TestResult.error r <> None ->
                                  TestResult.passed r = false) results).
  { eapply Forall_impl; [exact Hres|]. simpl.
    intros r (test & start & outcome & finish & ->). apply runTest_result_error. }
  clear Hres.
  pose proof (some_not_passed results) as Hsome.
  pose proof (failed_count results) as Hcount.
  destruct (existsb _ results).
  - assert (Hex : Exists (fun r => TestResult.passed r = false) results) by by apply Hsome.
    assert (Hnall : ~ Forall (fun r => TestResult.passed r = true) results).
    { intros Hall. apply Exists_exists in Hex as (r & Hin & Hr).
      rewrite Forall_forall in Hall. specialize (Hall r Hin). congruence. }
    repeat split; try done.
    + intros Hall. exfalso. apply Hnall. eapply Forall_impl; [exact Hall|]. by intros r [? _].
    + intros _. eapply Exists_impl; [exact Hex|]. by left.
    + by right.
    + intros Hzero. exfalso. apply Hnall. by apply Hcount.
  - assert (Hall : Forall (fun r => TestResult.passed r = true) results).
    { apply Forall_forall. intros r Hin.
      destruct (TestResult.passed r) eqn:Hp; [reflexivity|].
      assert (true = false) as Habs; [|discriminate].
      symmetry. apply Hsome. apply Exists_exists. eauto. }
    repeat split; try done.
    + intros _. rewrite Forall_forall in Hall, Herr. apply Forall_forall. intros r Hin.
      split; [by apply Hall|].
      destruct (TestResult.error r) eqn:He; [|reflexivity].
      specialize (Hall r Hin). specialize (Herr r Hin). rewrite He in Herr.
      rewrite Herr in Hall; [discriminate | discriminate].
    + intros Hex. exfalso. apply Exists_exists in Hex as (r & Hin & Hr).
      rewrite Forall_forall in Hall, Herr. specialize (Hall r Hin).
      destruct Hr as [Hr|Hr]; [congruence|]. specialize (Herr r Hin Hr). congruence.
    + by left.
    + intros _. by apply Hcount.
Qed.

(** ** [JSON.stringify] can be read back *)

#[local] Arguments append !s1 s2 : simpl nomatch.


Lemma append_nil_r (a : string) : a +:+ "" = a.
Proof. induction a as [|x a IH]; simpl; [reflexivity | by rewrite IH]. Qed.



Lemma string_of_uint_digits d : all_digits (NilEmpty.string_of_uint d) = true.
Proof. induction d; simpl; auto. Qed.

Lemma uint_text d :
  d <> Decimal.Nil ->
  match NilZero.string_of_uint d with
  | EmptyString => False
  | String c s => Ascii.eqb c "-" = false /\ all_digits (String c s) = true
  end.
Proof.
  intros Hd. pose proof (string_of_uint_digits d) as H.
  destruct d; try congruence; simpl in *; auto.
Qed.

Lemma Number_toString_text n : number_text (Number_toString n) = true.
Proof.
  unfold Number_toString. destruct n as [|p|p]; simpl; [reflexivity| |];
    pose proof (uint_text (Pos.to_uint p) (Unsigned.to_uint_nonnil p)) as H;
    destruct (NilZero.string_of_uint (Pos.to_uint p)) as [|c s]; try done;
    destruct H as [Hc Hd].
  - unfold number_text. rewrite Hc. exact Hd.
  - exact Hd.
Qed.







Lemma kind_of_text_number c s :
  Ascii.eqb c "-" || is_digit c = true -> kind_of_text (String c s) = Some KNum.
Proof. destruct c as [[] [] [] [] [] [] [] []]; try discriminate; reflexivity. Qed.

(** The first character of the text of a value tells its kind. *)
Lemma kind_of_text_stringify v r :
  kind_of_text (JSON_stringify v +:+ r) = Some (kind_of v).
Proof.
  destruct v as [ | [|] | n | s | items | members]; try reflexivity.
  change (JSON_stringify (JNum n)) with (Number_toString n).
  pose proof (Number_toString_text n) as Hn.
  destruct (Number_toString n) as [|c s]; [discriminate|].
  change (String c s +:+ r) with (String c (s +:+ r)).
  apply kind_of_text_number. unfold number_text in Hn.
  destruct (Ascii.eqb c "-"); [reflexivity|].
  simpl in Hn. apply andb_prop in Hn as [-> _]. reflexivity.
Qed.





(** ** Body-field checks *)



(** ** Header checks *)

Lemma prefix_spec t s : String.prefix t s = true <-> exists post, s = t +:+ post.
Proof.
  revert s. induction t as [|a t IH]; intros s.
  - destruct s; simpl; split; eauto.
  - destruct s as [|b s]; simpl.
    + split; [discriminate | intros [post [=]]].
    + destruct (ascii_dec a b) as [->|Hne].
      * rewrite IH. split; intros [post Hpost]; exists post; congruence.
      * split; [discriminate | intros [post [= ? _]]; congruence].
Qed.

(** [includes] is the literal substring test. *)
Lemma includes_spec s t :
  includes s t = true <-> exists pre post, s = pre +:+ t +:+ post.
Proof.
  induction s as [|c s IH].
  - change (includes "" t) with (String.prefix t "" || false).
    rewrite orb_true_iff, prefix_spec. split.
    + intros [[post Hpost] | ?]; [|discriminate]. exists "", post. exact Hpost.
    + intros ([|? pre] & post & Heq); [|discriminate]. left. by exists post.
  - change (includes (String c s) t) with (String.prefix t (String c s) || includes s t).
    rewrite orb_true_iff, prefix_spec, IH. split.
    + intros [[post Hpost] | (pre & post & Heq)].
      * exists "", post. exact Hpost.
      * exists (String c pre), post. simpl. by rewrite Heq.
    + intros ([|c' pre] & post & Heq); simpl in Heq.
      * left. by exists post.
      * injection Heq as -> Heq. right. by exists pre, post.
Qed.

Lemma str_truthy_spec (s : option string) :
  str_truthy s = true <-> exists value, s = Some value /\ value <> "".
Proof.
  destruct s as [value|]; simpl.
  - destruct (String.eqb_spec value ""); simpl; split.
    + discriminate.
    + intros (v & [= <-] & Hne). contradiction.
    + eauto.
    + reflexivity.
  - split; [discriminate | intros (v & Hv & _); discriminate].
Qed.

(** The normalised headers hold the headers of the message whose value
    is truthy, and nothing else. *)
Lemma responseHeaders_of_lookup entries key value :
  responseHeaders_of entries !! key = Some value ->
  exists val, (key, val) ∈ entries /\ header_truthy val = true /\ value = header_text val.
Proof.
  unfold responseHeaders_of.
  assert (Hgen : forall (acc : gmap string string),
    fold_left
      (fun (responseHeaders : gmap string string) (entry : string * HeaderValue) =>
         if header_truthy (snd entry)
         then <[ fst entry := header_text (snd entry) ]> responseHeaders
         else responseHeaders) entries acc !! key = Some value ->
    acc !! key = Some value \/
    exists val, (key, val) ∈ entries /\ header_truthy val = true /\ value = header_text val).
  { induction entries as [|[k val] entries IH]; intros acc; simpl; [auto|].
    intros H. apply IH in H as [H | (val' & Hin & Ht & Hv)].
    - destruct (header_truthy val) eqn:Ht; [|auto].
      destruct (decide (k = key)) as [->|Hne].
      + rewrite lookup_insert_eq in H. injection H as <-.
        right. exists val. split; [left|]; auto.
      + rewrite lookup_insert_ne in H by exact Hne. auto.
    - right. exists val'. split; [by right | auto]. }
  intros H. apply Hgen in H as [H|H]; [|exact H].
  by rewrite lookup_empty in H.
Qed.

(** C8, as stated, fails. A response that carries the header with an
    empty value, checked for the empty string: the header is there and
    its value contains the expected string, and the check fails, the
    header being taken as missing. *)
Lemma header_check_empty_value :
  let res := IncomingMessage.mk (Some 200) [("x-empty", HOne "")] "" in
  let req := makeRequest_request "http://localhost/" "GET" ∅ None 10000 in
  entries_get (IncomingMessage.headers res) (toLowerCase "X-Empty") = Some (HOne "") /\
  includes "" "" = true /\
  exists response,
    makeRequest_settled demo_parse req (Responded res) = inl response /\
    header_check_throws (Response.headers response) "X-Empty" = false /\
    Assertion.passed (header_check (Response.headers response) "X-Empty" "") = false.
Proof.
  repeat split. eexists. repeat split; reflexivity.
Qed.

Lemma header_check_throws_spec (response_headers : gmap string string) (key : string) :
  header_check_throws response_headers key = true <->
  toLowerCase key = "__proto__" \/
  (toLowerCase key = "constructor" /\ response_headers !! "constructor" = None).
Proof.
  unfold header_check_throws, header_read.
  destruct (String.eqb_spec (toLowerCase key) "__proto__") as [Hp|Hp].
  - split; auto.
  - destruct (response_headers !! toLowerCase key) as [value|] eqn:Hv.
    + split; [discriminate|]. intros [?|[Hc Hnone]]; [done|].
      rewrite Hc in Hv. congruence.
    + destruct (String.eqb_spec (toLowerCase key) "constructor") as [Hc|Hc].
      * split; [|reflexivity]. intros _. right. split; [exact Hc|]. by rewrite <- Hc.
      * split; [discriminate|]. intros [?|[? _]]; done.
Qed.

(** C8, amended. The header is looked up under its name in lower case,
    so names that differ in case only are checked alike. The lookup
    throws exactly for the name [__proto__], and for the name
    [constructor] when the response has no such header. For every other
    header-contains expectation the check passes exactly when the
    response headers hold a value under that name that is not empty and
    contains the expected string as a literal substring; otherwise (the
    header is missing, or empty, or does not contain the string) the
    outcome is a failed one with a detail that is not empty. *)
Theorem header_check_spec (response_headers : gmap string string) (key expected : string) :
  header_check_throws response_headers key = false ->
  let outcome := header_check response_headers key expected in
  (Assertion.passed outcome = true <->
   exists value,
     response_headers !! toLowerCase key = Some value /\ value <> "" /\
     exists pre post, value = pre +:+ expected +:+ post) /\
  (forall key',
     toLowerCase key' = toLowerCase key ->
     header_check_throws response_headers key' = false /\
     Assertion.passed (header_check response_headers key' expected) =
     Assertion.passed outcome) /\
  (Assertion.passed outcome = true -> Assertion.detail outcome = None) /\
  (Assertion.passed outcome = false ->
   exists detail, Assertion.detail outcome = Some detail /\ detail <> "") /\
  (response_headers !! toLowerCase key = None -> Assertion.passed outcome = false) /\
  (forall name,
     header_check_throws response_headers name = true <->
     toLowerCase name = "__proto__" \/
     (toLowerCase name = "constructor" /\ response_headers !! "constructor" = None)).
Proof.
  intros Hthrows outcome. unfold outcome, header_check. simpl.
  split; [split | split; [ | split; [ | split; [ | split]]]].
  - destruct (str_truthy _) eqn:Ht; [|discriminate].
    apply str_truthy_spec in Ht as (value & Hv & Hne). rewrite Hv. simpl.
    intros Hinc. exists value. repeat split; auto. by apply includes_spec.
  - intros (value & Hv & Hne & Hsub). rewrite Hv.
    assert (Ht : str_truthy (Some value) = true)
      by (apply str_truthy_spec; eauto).
    rewrite Ht. simpl. by apply includes_spec.
  - intros key' Hkey. split.
    + revert Hthrows. unfold header_check_throws, header_read. by rewrite Hkey.
    + by rewrite Hkey.
  - intros ->. reflexivity.
  - intros ->. eexists. split; [reflexivity | discriminate].
  - intros ->. reflexivity.
  - apply header_check_throws_spec.
Qed.

Lemma header_check_spec_witness :
  let headers := responseHeaders_of [("content-type", HOne "application/json")] in
  Assertion.passed (header_check headers "Content-Type" "json") = true <->
  exists value,
    headers !! toLowerCase "Content-Type" = Some value /\ value <> "" /\
    exists pre post, value = pre +:+ "json" +:+ post.
Proof.
  intros headers.
  apply (header_check_spec headers "Content-Type" "json"). reflexivity.
Defined.

(** ** The request that is made *)

(** C9. Every request carries the header [User-Agent]: its value is
    [api-smoke/1.0.0] unless the headers handed to [makeRequest] set it.
    This holds for the request of every test, whether the test declares
    headers of its own or takes those of the environment, be the test
    run alone or started with the others. *)
Theorem makeRequest_user_agent (url method : string) (headers : gmap string string)
    (body : option JSON) (timeout : Z) :
  Request.headers (makeRequest_request url method headers body timeout) !! "User-Agent"
    = Some (default "api-smoke/1.0.0" (headers !! "User-Agent")) /\
  forall (World : Type) (now : World -> Z) (send : Request.t -> World -> World)
         (test : TestCase.t) (baseUrl : string) (envHeaders : gmap string string)
         (w : World),
    let req := pending_request (fst (runTest_begin now send test baseUrl envHeaders timeout w)) in
    Request.headers req !! "User-Agent"
      = Some (default "api-smoke/1.0.0"
                (runTest_headers test envHeaders !! "User-Agent")) /\
    is_Some (Request.headers req !! "User-Agent").
Proof.
  assert (Hgen : forall url method (headers : gmap string string) body,
    Request.headers (makeRequest_request url method headers body timeout) !! "User-Agent"
      = Some (default "api-smoke/1.0.0" (headers !! "User-Agent"))).
  { clear. intros url method headers body. unfold makeRequest_request. simpl.
    assert (Hua : (headers ∪ {[ "User-Agent" := "api-smoke/1.0.0" ]}) !! "User-Agent"
                  = Some (default "api-smoke/1.0.0" (headers !! "User-Agent"))).
    { destruct (headers !! "User-Agent") as [v|] eqn:Hv; simpl.
      - by apply lookup_union_Some_l.
      - rewrite lookup_union_r by exact Hv. apply lookup_singleton_eq. }
    destruct (_ && _); [|exact Hua].
    rewrite lookup_insert_ne by discriminate. exact Hua. }
  split; [apply Hgen|].
  intros World now send test baseUrl envHeaders w req.
  unfold req, runTest_begin. cbn [fst pending_request]. rewrite Hgen. eauto.
Qed.

(** ** The environment of a run *)

(** C10. The chosen environment is not among the environments of the
    config. When its name is none that every object inherits, the run
    takes the environment named [default], with its base URL and its
    headers; when that is missing too, the base URL is the empty string
    and the environment headers are empty. When its name is an inherited
    one ([constructor], [toString], ...), there is no fallback: the base
    URL is empty and so are the headers, whatever [default] says. In
    every case the run goes on and completes (in parallel mode, once
    every request has settled), and its report names the chosen
    environment and the base URL that was resolved. *)
Theorem cmdRun_env_fallback {World : Type} (now : World -> Z)
    (send : Request.t -> World -> World) (settle : Request.t -> World -> Settled * World)
    (JSON_parse : string -> option JSON)
    (args : ParsedArgs.t) (config : SmokeConfig.t) (order : list nat) (w : World) :
  (forall environments,
     SmokeConfig.environments config = Some environments ->
     environments !! ParsedArgs.env args = None) ->
  let fallback :=
    match SmokeConfig.environments config with
    | Some environments => environments !! "default"
    | None => None
    end in
  let env := cmdRun_env args config in
  (is_inherited_name (ParsedArgs.env args) = false ->
   env = fallback /\
   cmdRun_baseUrl env =
     match fallback with
     | Some environment => Environment.baseUrl environment
     | None => ""
     end /\
   cmdRun_envHeaders env =
     match fallback with
     | Some environment => default ∅ (Environment.headers environment)
     | None => ∅
     end) /\
  (is_inherited_name (ParsedArgs.env args) = true ->
   SmokeConfig.environments config <> None ->
   cmdRun_baseUrl env = "" /\ cmdRun_envHeaders env = ∅) /\
  (ParsedArgs.parallel args = false \/
   order ≡ₚ seq 0 (length (SmokeConfig.tests config)) ->
   exists run,
     fst (cmdRun now send settle JSON_parse args config order w) = Some run /\
     Report.environment (Run.report run) = ParsedArgs.env args /\
     Report.baseUrl (Run.report run) = cmdRun_baseUrl env).
Proof.
  intros Hmissing fallback env. split; [|split].
  - intros Hown.
    assert (Henv : env = fallback).
    { unfold env, cmdRun_env, fallback.
      destruct (SmokeConfig.environments config) as [environments|]; [|reflexivity].
      by rewrite (Hmissing environments eq_refl), Hown. }
    rewrite Henv. split; [reflexivity|]. unfold cmdRun_baseUrl, cmdRun_envHeaders.
    destruct fallback as [environment|]; simpl; [|by split].
    split; [|reflexivity]. by destruct (String.eqb_spec (Environment.baseUrl environment) "").
  - intros Hinherited Hsome. unfold env, cmdRun_env.
    destruct (SmokeConfig.environments config) as [environments|]; [|done].
    by rewrite (Hmissing environments eq_refl), Hinherited.
  - intros Hmode. unfold cmdRun. fold env.
    destruct (ParsedArgs.parallel args) eqn:Hpar.
    + destruct Hmode as [?|Hperm]; [discriminate|].
      destruct (run_parallel_all now send settle JSON_parse (cmdRun_baseUrl env)
                  (cmdRun_envHeaders env) (ParsedArgs.timeout args)
                  (SmokeConfig.tests config) order w Hperm) as (results & Hres & _).
      destruct (run_parallel _ _ _ _ _ _ _ _ _ _) as [settled w1].
      simpl in Hres. subst settled. simpl. eexists. split; [reflexivity|]. auto.
    + destruct (run_sequential _ _ _ _ _ _ _ _ _ _ _) as [results w1].
      simpl. eexists. split; [reflexivity|]. auto.
Qed.

(** The environment [constructor], which the config does not declare:
    the base URL is empty although [default] has one. *)
Lemma cmdRun_env_fallback_witness :
  let config :=
    SmokeConfig.mk
      (Some {[ "default" :=
                 Environment.mk "http://localhost" (Some {[ "X-Token" := "t" ]}) ]})
      [demo_test "a" "/a" no_expectations] in
  let args := with_env "constructor" (demo_args false false) in
  (cmdRun_baseUrl (cmdRun_env args config) = "" /\
   cmdRun_envHeaders (cmdRun_env args config) = ∅) /\
  (let args := demo_args false false in
   cmdRun_baseUrl (cmdRun_env args config) = "http://localhost" /\
   cmdRun_envHeaders (cmdRun_env args config) = {[ "X-Token" := "t" ]}).
Proof.
  intros config args. split.
  - destruct (cmdRun_env_fallback demo_now demo_send demo_settle demo_parse
                args config [] 0%nat) as (_ & Hinherited & _).
    + intros environments [= <-]. reflexivity.
    + apply Hinherited; [reflexivity | discriminate].
  - destruct (cmdRun_env_fallback demo_now demo_send demo_settle demo_parse
                (demo_args false false) config [] 0%nat) as (Hown & _ & _).
    + intros environments [= <-]. reflexivity.
    + destruct (Hown eq_refl) as (_ & Hurl & Hheaders). split; [exact Hurl | exact Hheaders].
Defined.

Lemma cmdRun_exitCode_witness :
  let config :=
    SmokeConfig.mk None
      [demo_test "a" "/a" no_expectations; demo_test "b" "/down" no_expectations] in
  exists run,
    fst (cmdRun demo_now demo_send demo_settle demo_parse (demo_args false false)
           config [] 0%nat) = Some run /\
    (Run.exitCode run = 0 <->
     Forall (fun r => TestResult.passed r = true /\ TestResult.error r = None)
       (Report.results (Run.report run))) /\
    Run.exitCode run = 1.
Proof.
  intros config. eexists. split; [reflexivity|]. split; [|reflexivity].
  apply (cmdRun_exitCode demo_now demo_send demo_settle demo_parse
           (demo_args false false) config [] 0%nat).
  reflexivity.
Defined.

(** ** Scenarios *)

(** The health check of the sample config against a responder that
    answers 200 with the body [{status: ok}]: a status outcome and a
    body-field outcome, both passed. *)
Example scenario_health_ok :
  let test :=
    demo_test "Health check" "/health"
      (Expect.mk (Some 200) (Some [("status", JStr "ok")]) None None None) in
  let body := JObj [("status", JStr "ok")] in
  let response := Response.mk 200 ∅ body (JSON_stringify body) in
  map Assertion.passed (checkAssertions test response) = [true; true] /\
  map Assertion.detail (checkAssertions test response) = [None; None].
Proof. split; reflexivity. Qed.

(** The same test against a responder that answers 503: the status
    outcome fails and tells the status that came, the test fails. *)
Example scenario_health_503 :
  let test :=
    demo_test "Health check" "/health"
      (Expect.mk (Some 200) (Some [("status", JStr "ok")]) None None None) in
  let body := JObj [("status", JStr "ok")] in
  let response := Response.mk 503 ∅ body (JSON_stringify body) in
  map Assertion.passed (checkAssertions test response) = [false; true] /\
  map Assertion.detail (checkAssertions test response) = [Some "Got 503"; None] /\
  forallb Assertion.passed (checkAssertions test response) = false.
Proof. repeat split; reflexivity. Qed.

(** Two terms to find in the body [{id: 1}]: two outcomes, the first
    passed, the second failed. *)
Example scenario_body_contains :
  let test :=
    demo_test "List users" "/users"
      (Expect.mk None None (Some (ManyTerms ["id"; "name"])) None None) in
  let body := JObj [("id", JNum 1)] in
  let response := Response.mk 200 ∅ body (JSON_stringify body) in
  map Assertion.passed (checkAssertions test response) = [true; false].
Proof. reflexivity. Qed.

(** A header is found under any spelling of its name. *)
Example scenario_header_case :
  let headers := responseHeaders_of [("content-type", HOne "application/json")] in
  Assertion.passed (header_check headers "Content-Type" "json") = true /\
  Assertion.passed (header_check headers "CONTENT-TYPE" "json") = true /\
  Assertion.passed (header_check headers "Content-Type" "xml") = false /\
  Assertion.passed (header_check headers "X-Request-Id" "1") = false.
Proof. repeat split; reflexivity. Qed.

(** * Further properties *)

(** ** The request *)

Lemma JSON_stringify_nonempty v : JSON_stringify v <> "".
Proof.
  intros H. pose proof (kind_of_text_stringify v "") as Hk.
  rewrite append_nil_r, H in Hk. discriminate.
Qed.

Lemma truthy_false v :
  truthy v = false <-> v = JNull \/ v = JBool false \/ v = JNum 0 \/ v = JStr "".
Proof.
  destruct v as [ | [|] | n | s | items | members]; simpl.
  - split; auto.
  - split; [discriminate | intros [?|[?|[?|?]]]; discriminate].
  - split; auto.
  - rewrite negb_false_iff, Z.eqb_eq. split.
    + intros ->. auto.
    + intros [?|[?|[ [= ->]|?]]]; try discriminate. reflexivity.
  - rewrite negb_false_iff, String.eqb_eq. split.
    + intros ->. auto.
    + intros [?|[?|[?|[= ->]]]]; try discriminate. reflexivity.
  - split; [discriminate | intros [?|[?|[?|?]]]; discriminate].
  - split; [discriminate | intros [?|[?|[?|?]]]; discriminate].
Qed.

(** The text that is written to a request is not empty. *)
Lemma makeRequest_bodyStr_nonempty (url method : string) (headers : gmap string string)
    (body : option JSON) (timeout : Z) (text : string) :
  Request.bodyStr (makeRequest_request url method headers body timeout) = Some text ->
  text <> "".
Proof.
  unfold makeRequest_request. simpl. destruct body as [b|]; [|discriminate].
  destruct (truthy b); [|discriminate]. intros [= <-]. apply JSON_stringify_nonempty.
Qed.

Lemma makeRequest_headers_content_type (headers : gmap string string) :
  (headers ∪ {[ "User-Agent" := "api-smoke/1.0.0" ]}) !! "Content-Type"
  = headers !! "Content-Type".
Proof.
  rewrite lookup_union, lookup_singleton_ne by discriminate.
  by destruct (headers !! "Content-Type").
Qed.

(** A content type that the caller set is kept. *)
Lemma makeRequest_content_type_kept (url method : string) (headers : gmap string string)
    (body : option JSON) (timeout : Z) (value : string) :
  headers !! "Content-Type" = Some value -> value <> "" ->
  Request.headers (makeRequest_request url method headers body timeout) !! "Content-Type"
  = Some value.
Proof.
  intros Hv Hne. unfold makeRequest_request. simpl.
  rewrite makeRequest_headers_content_type, Hv. simpl.
  destruct (String.eqb_spec value ""); [contradiction|]. simpl.
  rewrite andb_false_r. by rewrite makeRequest_headers_content_type.
Qed.

(** X1. The body of a request. A body is written to the request exactly
    when the test has a body that is truthy: a missing body and the
    bodies [null], [false], [0] and the empty string send nothing. What
    is written is the JSON text of the body, which is never empty. *)
Theorem makeRequest_body (url method : string) (headers : gmap string string)
    (body : option JSON) (timeout : Z) :
  let req := makeRequest_request url method headers body timeout in
  (Request.bodyStr req = None <->
   body = None \/ body = Some JNull \/ body = Some (JBool false) \/
   body = Some (JNum 0) \/ body = Some (JStr "")) /\
  (forall text, Request.bodyStr req = Some text ->
     text <> "" /\ exists b, body = Some b /\ text = JSON_stringify b).
Proof.
  unfold makeRequest_request. simpl. split.
  - destruct body as [b|]; [|split; auto].
    destruct (truthy b) eqn:Hb; split.
    + discriminate.
    + intros [?|H]; [discriminate|].
      assert (truthy b = false); [|congruence].
      apply truthy_false.
      destruct H as [ [= ->]|[ [= ->]|[ [= ->]|[= ->]]]]; auto.
    + intros _. right. apply truthy_false in Hb.
      destruct Hb as [-> | [-> | [-> | ->]]]; auto.
    + reflexivity.
  - intros text Htext. destruct body as [b|]; [|discriminate].
    destruct (truthy b); [|discriminate]. injection Htext as <-.
    split; [apply JSON_stringify_nonempty | eauto].
Qed.

(** X2. The content type of a request. When a body is written and the
    headers handed to [makeRequest] hold no content type, or an empty
    one, the request declares [application/json]; a content type that the
    caller set is kept; without a body the header is left as the caller
    gave it. *)
Theorem makeRequest_content_type (url method : string) (headers : gmap string string)
    (body : option JSON) (timeout : Z) :
  let req := makeRequest_request url method headers body timeout in
  (forall value, headers !! "Content-Type" = Some value -> value <> "" ->
     Request.headers req !! "Content-Type" = Some value) /\
  (is_Some (Request.bodyStr req) ->
   str_truthy (headers !! "Content-Type") = false ->
   Request.headers req !! "Content-Type" = Some "application/json") /\
  (Request.bodyStr req = None ->
   Request.headers req !! "Content-Type" = headers !! "Content-Type").
Proof.
  intros req. split; [|split].
  - intros value Hv Hne. by apply makeRequest_content_type_kept.
  - intros [text Htext] Hfalsy.
    pose proof (makeRequest_bodyStr_nonempty url method headers body timeout text Htext)
      as Hne.
    unfold req in *. unfold makeRequest_request in *. simpl in *.
    rewrite makeRequest_headers_content_type, Htext, Hfalsy. simpl.
    destruct (String.eqb_spec text ""); [contradiction|]. simpl.
    apply lookup_insert_eq.
  - unfold req. unfold makeRequest_request. simpl. intros ->. simpl.
    apply makeRequest_headers_content_type.
Qed.

Lemma makeRequest_content_type_witness :
  let req :=
    makeRequest_request "http://localhost/users" "POST" {[ "Accept" := "text/plain" ]}
      (Some (JObj [("name", JStr "Test User")])) 10000 in
  Request.headers req !! "Content-Type" = Some "application/json".
Proof.
  apply (makeRequest_content_type "http://localhost/users" "POST"
           {[ "Accept" := "text/plain" ]} (Some (JObj [("name", JStr "Test User")])) 10000).
  - eexists. reflexivity.
  - reflexivity.
Defined.

(** X3. Precedence of headers. A header that the test sets reaches the
    request with the value of the test, whatever the environment says; a
    header that only the environment sets reaches it with the value of
    the environment. (An empty content type is the one value that may be
    replaced, see X2.) *)
Theorem runTest_header_precedence (test : TestCase.t) (baseUrl : string)
    (envHeaders : gmap string string) (timeout : Z) (key value : string) :
  key <> "Content-Type" \/ value <> "" ->
  let req :=
    makeRequest_request (runTest_url test baseUrl) (runTest_method test)
      (runTest_headers test envHeaders) (TestCase.body test) timeout in
  (default ∅ (TestCase.headers test) !! key = Some value ->
   Request.headers req !! key = Some value) /\
  (default ∅ (TestCase.headers test) !! key = None ->
   envHeaders !! key = Some value ->
   Request.headers req !! key = Some value).
Proof.
  intros Hkey req.
  assert (Hreq : forall (headers : gmap string string),
    headers !! key = Some value ->
    Request.headers
      (makeRequest_request (runTest_url test baseUrl) (runTest_method test) headers
         (TestCase.body test) timeout) !! key = Some value).
  { intros headers Hv.
    destruct (decide (key = "Content-Type")) as [->|Hne].
    - destruct Hkey as [?|Hvalue]; [done|].
      by apply makeRequest_content_type_kept.
    - unfold makeRequest_request. simpl.
      assert (Hu : (headers ∪ {[ "User-Agent" := "api-smoke/1.0.0" ]}) !! key = Some value)
        by by apply lookup_union_Some_l.
      destruct (_ && _); [|exact Hu].
      rewrite lookup_insert_ne by congruence. exact Hu. }
  split.
  - intros Ht. apply Hreq. unfold runTest_headers. by apply lookup_union_Some_l.
  - intros Ht He. apply Hreq. unfold runTest_headers.
    rewrite lookup_union_r by exact Ht. exact He.
Qed.

Lemma runTest_header_precedence_witness :
  let test :=
    TestCase.mk "t" "/t" "GET" (Some {[ "Authorization" := "Bearer test" ]}) None
      no_expectations in
  let req :=
    makeRequest_request (runTest_url test "http://localhost") (runTest_method test)
      (runTest_headers test {[ "Authorization" := "Bearer env" ]}) (TestCase.body test)
      10000 in
  Request.headers req !! "Authorization" = Some "Bearer test".
Proof.
  intros test.
  destruct (runTest_header_precedence test "http://localhost"
              {[ "Authorization" := "Bearer env" ]} 10000 "Authorization" "Bearer test")
    as [Htest _].
  - left. discriminate.
  - apply Htest. reflexivity.
Defined.

(** ** The response *)

Lemma responseHeaders_of_skip entries key (acc : gmap string string) :
  key ∉ map fst entries ->
  fold_left
    (fun (responseHeaders : gmap string string) (entry : string * HeaderValue) =>
       if header_truthy (snd entry)
       then <[ fst entry := header_text (snd entry) ]> responseHeaders
       else responseHeaders) entries acc !! key = acc !! key.
Proof.
  revert acc. induction entries as [|[k val] entries IH]; intros acc Hkey; simpl;
    [reflexivity|].
  simpl in Hkey. apply not_elem_of_cons in Hkey as [Hne Hkey].
  rewrite IH by exact Hkey.
  destruct (header_truthy val); [|reflexivity].
  by rewrite lookup_insert_ne.
Qed.

(** X4. The headers of a response. When the message names every header
    once, the response holds under a name exactly the value the message
    gives it, provided that value is truthy: a header whose value is
    undefined or the empty string is left out, a header with several
    values holds them joined by a comma and a space. *)
Theorem responseHeaders_of_spec (entries : list (string * HeaderValue))
    (key value : string) :
  NoDup (map fst entries) ->
  (responseHeaders_of entries !! key = Some value <->
   exists val,
     (key, val) ∈ entries /\ header_truthy val = true /\ value = header_text val) /\
  (forall values,
     (key, HMany values) ∈ entries ->
     responseHeaders_of entries !! key = Some (String.concat ", " values)) /\
  ((key, HOne "") ∈ entries \/ (key, HUndefined) ∈ entries ->
   responseHeaders_of entries !! key = None).
Proof.
  intros Hnodup.
  assert (Hin : forall val, (key, val) ∈ entries ->
    responseHeaders_of entries !! key =
      if header_truthy val then Some (header_text val) else None).
  { unfold responseHeaders_of.
    assert (Hgen : forall (acc : gmap string string) val,
      acc !! key = None -> (key, val) ∈ entries ->
      fold_left
        (fun (responseHeaders : gmap string string) (entry : string * HeaderValue) =>
           if header_truthy (snd entry)
           then <[ fst entry := header_text (snd entry) ]> responseHeaders
           else responseHeaders) entries acc !! key
      = if header_truthy val then Some (header_text val) else None).
    { induction entries as [|[k v] entries IH]; intros acc val Hacc Hval.
      - by apply elem_of_nil in Hval.
      - simpl in Hnodup. apply NoDup_cons in Hnodup as [Hk Hnodup]. simpl.
        apply elem_of_cons in Hval as [[= <- <-]|Hval].
        + rewrite responseHeaders_of_skip by exact Hk.
          destruct (header_truthy val); [apply lookup_insert_eq | exact Hacc].
        + apply IH; [exact Hnodup| |exact Hval].
          assert (k <> key).
          { intros ->. apply Hk. apply list_elem_of_fmap. by exists (key, val). }
          destruct (header_truthy v); [by rewrite lookup_insert_ne | exact Hacc]. }
    intros val Hval. apply Hgen; [apply lookup_empty | exact Hval]. }
  split; [split|split].
  - apply responseHeaders_of_lookup.
  - intros (val & Hval & Ht & ->). rewrite (Hin val Hval), Ht. reflexivity.
  - intros values Hval. by rewrite (Hin _ Hval).
  - intros [Hval|Hval]; by rewrite (Hin _ Hval).
Qed.

Lemma responseHeaders_of_spec_witness :
  responseHeaders_of
    [("set-cookie", HMany ["a=1"; "b=2"]); ("x-empty", HOne ""); ("etag", HOne "v1")]
    !! "set-cookie" = Some "a=1, b=2".
Proof.
  destruct (responseHeaders_of_spec
              [("set-cookie", HMany ["a=1"; "b=2"]); ("x-empty", HOne "");
               ("etag", HOne "v1")]
              "set-cookie" "") as (_ & Hmany & _).
  - apply (bool_decide_unpack _). by vm_compute.
  - apply (Hmany ["a=1"; "b=2"]). left.
Defined.

(** X5. Whatever the response ends with, [makeRequest] resolves: a
    message with any status code, or with none, is no failure. The
    response keeps the text of the body; its status is the status code of
    the message, or 0 without one; its body is what [JSON.parse] makes of
    the text, or the text itself when that does not parse, in which case
    every body-field check fails with the detail [Got undefined]. *)
Theorem makeRequest_settled_response (JSON_parse : string -> option JSON)
    (req : Request.t) (res : IncomingMessage.t) :
  exists response,
    makeRequest_settled JSON_parse req (Responded res) = inl response /\
    Response.bodyRaw response = IncomingMessage.data res /\
    Response.status response = default 0 (IncomingMessage.statusCode res) /\
    Response.headers response = responseHeaders_of (IncomingMessage.headers res) /\
    (forall v, JSON_parse (IncomingMessage.data res) = Some v -> Response.body response = v) /\
    (JSON_parse (IncomingMessage.data res) = None ->
     Response.body response = JStr (IncomingMessage.data res) /\
     forall key expected,
       Assertion.passed (body_field_check (Response.body response) key expected) = false /\
       Assertion.detail (body_field_check (Response.body response) key expected)
         = Some "Got undefined").
Proof.
  eexists. split; [reflexivity|]. simpl.
  split; [reflexivity|]. split; [reflexivity|]. split; [reflexivity|]. split.
  - intros v ->. reflexivity.
  - intros Hnone. rewrite Hnone. simpl. split; [reflexivity|].
    intros key expected. split; reflexivity.
Qed.

(** ** The assertions *)

Lemma body_field_check_passed (body : JSON) (key : string) (expected : JSON) :
  Assertion.passed (body_field_check body key expected) = true <->
  JSON_stringify_opt (if typeof_object body then get_property body key else None)
  = Some (JSON_stringify expected).
Proof.
  unfold body_field_check. simpl.
  destruct (JSON_stringify_opt _) as [text|].
  - rewrite String.eqb_eq. split; congruence.
  - split; discriminate.
Qed.

(** X6. A field that the body does not have. When the parsed body is an
    object without the member [key], the body-field check for [key]
    fails with the detail [Got undefined], whatever value is expected,
    [null] included. The one exception is the key [__proto__], which
    reads as the prototype of the body: the check then passes exactly
    when the expected value has the JSON text of an empty object. *)
Theorem body_field_check_missing (members : list (string * JSON)) (key : string)
    (expected : JSON) :
  entries_get members key = None ->
  (key <> "__proto__" ->
   Assertion.passed (body_field_check (JObj members) key expected) = false /\
   Assertion.detail (body_field_check (JObj members) key expected) = Some "Got undefined") /\
  (key = "__proto__" ->
   (Assertion.passed (body_field_check (JObj members) key expected) = true <->
    JSON_stringify expected = "{}")).
Proof.
  intros Hkey. split.
  - intros Hne. apply String.eqb_neq in Hne.
    unfold body_field_check, get_property, inherited_property. simpl.
    rewrite Hkey, Hne. simpl. auto.
  - intros ->. rewrite body_field_check_passed. simpl. rewrite Hkey. simpl.
    split; [intros [= H]; by symmetry | intros H; by rewrite H].
Qed.

Lemma body_field_check_missing_witness :
  Assertion.passed (body_field_check (JObj [("id", JNum 1)]) "name" JNull) = false /\
  Assertion.detail (body_field_check (JObj [("id", JNum 1)]) "name" JNull)
    = Some "Got undefined".
Proof.
  destruct (body_field_check_missing [("id", JNum 1)] "name" JNull eq_refl) as [Hother _].
  apply Hother. discriminate.
Defined.

Lemma forallb_app_true {A} (f : A -> bool) (l k : list A) :
  forallb f (l ++ k) = true <-> forallb f l = true /\ forallb f k = true.
Proof. rewrite forallb_app. apply andb_true_iff. Qed.

(** X7. A term that must be there and must not be there. A test that
    lists the same term under [bodyContains] and under [bodyNotContains],
    both checked, passes for no response. *)
Theorem contains_and_not_contains (test : TestCase.t) (response : Response.t)
    (term : string) :
  term ∈ checked_terms (Expect.bodyContains (TestCase.expect test)) ->
  term ∈ checked_terms (Expect.bodyNotContains (TestCase.expect test)) ->
  forallb Assertion.passed (checkAssertions test response) = false.
Proof.
  intros Hc Hn. apply not_true_is_false. intros Hall.
  rewrite checkAssertions_groups in Hall.
  apply forallb_app_true in Hall as [_ Hall].
  apply forallb_app_true in Hall as [_ Hall].
  apply forallb_app_true in Hall as [Hcont Hall].
  apply forallb_app_true in Hall as [Hnot _].
  rewrite forallb_forall in Hcont, Hnot.
  assert (H1 : Assertion.passed (body_contains_check (Response.bodyRaw response) term) = true).
  { apply Hcont. apply in_map. by apply list_elem_of_In. }
  assert (H2 : Assertion.passed (body_not_contains_check (Response.bodyRaw response) term)
               = true).
  { apply Hnot. apply in_map. by apply list_elem_of_In. }
  simpl in H1, H2. rewrite H1 in H2. discriminate.
Qed.

Lemma contains_and_not_contains_witness :
  let test :=
    demo_test "t" "/t"
      (Expect.mk None None (Some (OneTerm "id")) (Some (ManyTerms ["error"; "id"])) None) in
  forallb Assertion.passed
    (checkAssertions test (Response.mk 200 ∅ (JStr "id") "id")) = false.
Proof.
  intros test.
  apply (contains_and_not_contains test (Response.mk 200 ∅ (JStr "id") "id") "id").
  - simpl. set_solver.
  - simpl. set_solver.
Defined.

(** X8. When no header check throws: a passed outcome carries no
    detail, and a contains or not-contains outcome carries none even when
    it fails; a failed status check is the first outcome and tells the
    status that came (the numbers being safe integers, which print in
    decimal). *)
Theorem checkAssertions_details (test : TestCase.t) (response : Response.t) :
  checkAssertions_throws test response = false ->
  let terms_of (terms : option Terms) : list string :=
    match terms with
    | Some (ManyTerms many) => many
    | Some (OneTerm one) => if String.eqb one "" then [] else [one]
    | None => []
    end in
  Forall (fun a => Assertion.passed a = true -> Assertion.detail a = None)
    (checkAssertions test response) /\
  (forall term,
     term ∈ terms_of (Expect.bodyContains (TestCase.expect test)) ->
     Assertion.mk ("Body contains " +:+ String dquote term +:+ String dquote "")
       (includes (Response.bodyRaw response) term) None
     ∈ checkAssertions test response) /\
  (forall term,
     term ∈ terms_of (Expect.bodyNotContains (TestCase.expect test)) ->
     Assertion.mk ("Body doesn't contain " +:+ String dquote term +:+ String dquote "")
       (negb (includes (Response.bodyRaw response) term)) None
     ∈ checkAssertions test response) /\
  (forall expected,
     Expect.status (TestCase.expect test) = Some expected ->
     safe_integer expected = true ->
     safe_integer (Response.status response) = true ->
     Response.status response <> expected ->
     head (checkAssertions test response) =
       Some (Assertion.mk ("Status is " +:+ Number_toString expected) false
               (Some ("Got " +:+ Number_toString (Response.status response))))).
Proof.
  intros _ terms_of.
  assert (Hterms : forall terms, checked_terms terms = terms_of terms).
  { intros [[one|many]|]; simpl; try reflexivity.
    by destruct (String.eqb one ""). }
  split; [|split; [|split]].
  - rewrite checkAssertions_groups. rewrite !Forall_app. repeat split.
    + destruct (Expect.status _); repeat constructor. simpl. by intros ->.
    + apply Forall_forall. intros a Ha. apply list_elem_of_fmap in Ha as (e & -> & _).
      unfold body_field_check. simpl. by intros ->.
    + apply Forall_forall. intros a Ha. by apply list_elem_of_fmap in Ha as (e & -> & _).
    + apply Forall_forall. intros a Ha. by apply list_elem_of_fmap in Ha as (e & -> & _).
    + apply Forall_forall. intros a Ha. apply list_elem_of_fmap in Ha as (e & -> & _).
      unfold header_check. simpl. by intros ->.
  - intros term Hterm. rewrite checkAssertions_groups, !Hterms.
    rewrite !elem_of_app. right. right. left.
    apply list_elem_of_fmap. by exists term.
  - intros term Hterm. rewrite checkAssertions_groups, !Hterms.
    rewrite !elem_of_app. right. right. right. left.
    apply list_elem_of_fmap. exists term. split; [reflexivity | exact Hterm].
  - intros expected He _ _ Hne. rewrite checkAssertions_groups, He. simpl.
    unfold status_check. apply Z.eqb_neq in Hne. by rewrite Hne.
Qed.

Lemma checkAssertions_details_witness :
  let test :=
    demo_test "t" "/t" (Expect.mk (Some 200) None (Some (OneTerm "id")) None None) in
  let response := Response.mk 503 ∅ (JStr "") "" in
  head (checkAssertions test response) =
    Some (Assertion.mk "Status is 200" false (Some "Got 503")).
Proof.
  intros test response.
  destruct (checkAssertions_details test response eq_refl) as (_ & _ & _ & Hstatus).
  apply (Hstatus 200); [reflexivity | reflexivity | reflexivity | discriminate].
Defined.

(** ** The result of a test *)

(** X9. A test that expects a status passes only with that status: when
    the result of a test has passed and the test expects the status
    [expected], the status of the result is [expected]. *)
Theorem runTest_passed_status {World : Type} (now : World -> Z)
    (send : Request.t -> World -> World) (settle : Request.t -> World -> Settled * World)
    (JSON_parse : string -> option JSON)
    (test : TestCase.t) (baseUrl : string) (envHeaders : gmap string string)
    (timeout : Z) (w : World) (expected : Z) :
  let result := fst (runTest now send settle JSON_parse test baseUrl envHeaders timeout w) in
  Expect.status (TestCase.expect test) = Some expected ->
  TestResult.passed result = true ->
  TestResult.status result = Some expected.
Proof.
  intros result Hexp. unfold result.
  destruct (runTest_is_result now send settle JSON_parse test baseUrl envHeaders timeout w)
    as (start & [response|message] & finish & ->); [|discriminate].
  unfold runTest_result. destruct (checkAssertions_throws test response);
    [discriminate|]. simpl.
  rewrite checkAssertions_groups, Hexp. simpl.
  intros Hall. apply andb_prop in Hall as [Hst _].
  apply Z.eqb_eq in Hst. by rewrite Hst.
Qed.

Lemma runTest_passed_status_witness :
  let test := demo_test "health" "/health" (Expect.mk (Some 200) None None None None) in
  TestResult.status
    (fst (runTest demo_now demo_send demo_settle demo_parse test
            "http://localhost" ∅ 10000 0%nat)) = Some 200.
Proof.
  intros test.
  apply (runTest_passed_status demo_now demo_send demo_settle demo_parse test
           "http://localhost" ∅ 10000 0%nat 200); reflexivity.
Defined.

(** X10. The shape of a result. The result of [runTest] bears the name
    of the test and the time that went by between the start and the
    settling of the request. It has a status or an error; it has both
    exactly when the request was answered and a header check threw on the
    response. With an error it has no assertions and has not passed; and
    it has passed exactly when it has no error and every one of its
    assertions has passed. *)
Theorem runTest_result_shape {World : Type} (now : World -> Z)
    (send : Request.t -> World -> World) (settle : Request.t -> World -> Settled * World)
    (JSON_parse : string -> option JSON)
    (test : TestCase.t) (baseUrl : string) (envHeaders : gmap string string)
    (timeout : Z) (w : World) :
  let request :=
    makeRequest send settle JSON_parse (runTest_url test baseUrl) (runTest_method test)
      (runTest_headers test envHeaders) (TestCase.body test) timeout w in
  let run := runTest now send settle JSON_parse test baseUrl envHeaders timeout w in
  let result := fst run in
  TestResult.name result = TestCase.name test /\
  TestResult.responseTime result = now (snd run) - now w /\
  (TestResult.error result = None -> is_Some (TestResult.status result)) /\
  (TestResult.status result = None -> TestResult.error result <> None) /\
  (is_Some (TestResult.status result) /\ TestResult.error result <> None <->
   exists response,
     fst request = inl response /\ checkAssertions_throws test response = true) /\
  (TestResult.error result <> None ->
   TestResult.assertions result = [] /\ TestResult.passed result = false) /\
  (TestResult.passed result = true <->
   TestResult.error result = None /\
   Forall (fun a => Assertion.passed a = true) (TestResult.assertions result)).
Proof.
  unfold runTest. destruct (makeRequest _ _ _ _ _ _ _ _ _) as [[response|message] w'];
    unfold runTest_result; simpl.
  - destruct (checkAssertions_throws test response) eqn:Hthrows; simpl.
    + split; [reflexivity|]. split; [reflexivity|].
      split; [discriminate|]. split; [discriminate|].
      split; [split; [eauto | intros _; split; [eauto | discriminate]]|].
      split; [auto|]. split; [discriminate | intros [? _]; discriminate].
    + split; [reflexivity|]. split; [reflexivity|].
      split; [eauto|]. split; [discriminate|].
      split; [split; [intros [_ ?]; done | intros (r & [= <-] & ?); congruence]|].
      split; [done|]. split.
      * intros Hall. split; [reflexivity|]. apply Forall_forall. intros a Ha.
        rewrite forallb_forall in Hall. apply Hall. by apply list_elem_of_In.
      * intros [_ Hall]. apply forallb_forall. intros a Ha.
        rewrite Forall_forall in Hall. apply Hall. by apply list_elem_of_In.
  - split; [reflexivity|]. split; [reflexivity|].
    split; [discriminate|]. split; [discriminate|].
    split; [split; [intros [[? ?] _]; discriminate | intros (r & ? & _); discriminate]|].
    split; [auto|]. split; [discriminate | intros [? _]; discriminate].
Qed.

(** ** The report *)

Lemma filter_passed_length (results : list TestResult.t) :
  (length (filter (fun r => TestResult.passed r = true) results) +
   length (filter (fun r => TestResult.passed r = false) results))%nat = length results.
Proof.
  induction results as [|r results IH]; [reflexivity|].
  rewrite !filter_cons. destruct (TestResult.passed r).
  - destruct (decide (true = true)) as [_|?]; [|done].
    destruct (decide (true = false)) as [?|_]; [done|]. simpl. lia.
  - destruct (decide (false = true)) as [?|_]; [done|].
    destruct (decide (false = false)) as [_|?]; [|done]. simpl. lia.
Qed.

(** The report and the exit code of a run, from its results. *)
Lemma cmdRun_run {World : Type} (now : World -> Z)
    (send : Request.t -> World -> World) (settle : Request.t -> World -> Settled * World)
    (JSON_parse : string -> option JSON)
    (args : ParsedArgs.t) (config : SmokeConfig.t) (order : list nat) (w : World)
    (run : Run.t) :
  fst (cmdRun now send settle JSON_parse args config order w) = Some run ->
  exists results duration,
    run = Run.mk
            (Report.mk (ParsedArgs.env args) (cmdRun_baseUrl (cmdRun_env args config))
               (length results)
               (length (filter (fun r => TestResult.passed r = true) results))
               (length (filter (fun r => TestResult.passed r = false) results))
               duration results)
            (if existsb (fun r => negb (TestResult.passed r)) results then 1 else 0).
Proof.
  unfold cmdRun.
  destruct (if ParsedArgs.parallel args then _ else _) as [[results|] w1]; simpl;
    [|discriminate].
  intros [= <-]. eauto.
Qed.

(** X11. The counts of a report. In the report of every run that
    completes, [total] is the number of results, and [passed] and
    [failed] add up to it. *)
Theorem cmdRun_counts {World : Type} (now : World -> Z)
    (send : Request.t -> World -> World) (settle : Request.t -> World -> Settled * World)
    (JSON_parse : string -> option JSON)
    (args : ParsedArgs.t) (config : SmokeConfig.t) (order : list nat) (w : World)
    (run : Run.t) :
  fst (cmdRun now send settle JSON_parse args config order w) = Some run ->
  Report.total (Run.report run) = length (Report.results (Run.report run)) /\
  (Report.passed (Run.report run) + Report.failed (Run.report run))%nat =
    Report.total (Run.report run) /\
  (Report.total (Run.report run) <= length (SmokeConfig.tests config))%nat.
Proof.
  intros Hrun.
  assert (Hlen : (length (Report.results (Run.report run))
                  <= length (SmokeConfig.tests config))%nat).
  { revert Hrun. unfold cmdRun. destruct (ParsedArgs.parallel args).
    - unfold run_parallel.
      pose proof (begin_all_tests now send (cmdRun_baseUrl (cmdRun_env args config))
                    (cmdRun_envHeaders (cmdRun_env args config)) (ParsedArgs.timeout args)
                    (SmokeConfig.tests config) w) as Htests.
      destruct (begin_all _ _ _ _ _ _ _) as [pending w1]. simpl in Htests.
      pose proof (resume_all_length now settle JSON_parse pending order
                    (replicate (length pending) None) w1) as Hlen.
      destruct (resume_all _ _ _ _ _ _ _) as [slots w2]. simpl in *.
      rewrite length_replicate in Hlen.
      destruct (Promise_all slots) as [results|] eqn:Hall; simpl; [|discriminate].
      intros [= <-]. simpl.
      assert (length results = length slots) as ->.
      { clear -Hall. revert results Hall.
        induction slots as [|[x|] slots IH]; intros results; simpl; try discriminate.
        - by intros [= <-].
        - destruct (Promise_all slots) as [xs|]; [|discriminate].
          intros [= <-]. simpl. by rewrite (IH xs). }
      rewrite Hlen, <- Htests, length_map. lia.
    - pose proof (run_sequential_bail now send settle JSON_parse
                    (cmdRun_baseUrl (cmdRun_env args config))
                    (cmdRun_envHeaders (cmdRun_env args config)) (ParsedArgs.timeout args)
                    (SmokeConfig.tests config) w) as Hbail.
      pose proof (run_sequential_all now send settle JSON_parse
                    (cmdRun_baseUrl (cmdRun_env args config))
                    (cmdRun_envHeaders (cmdRun_env args config)) (ParsedArgs.timeout args)
                    (SmokeConfig.tests config) w) as Hfull.
      apply Forall2_length in Hfull. simpl in Hbail.
      destruct (ParsedArgs.bail args).
      + destruct (run_sequential _ _ _ _ true _ _ _ _ _ _) as [results w1].
        simpl in *. intros [= <-]. simpl. rewrite Hbail, length_take. lia.
      + destruct (run_sequential _ _ _ _ false _ _ _ _ _ _) as [results w1].
        simpl in *. intros [= <-]. simpl. lia. }
  destruct (cmdRun_run now send settle JSON_parse args config order w run Hrun)
    as (results & duration & ->).
  simpl in *. split; [reflexivity|]. split; [apply filter_passed_length | exact Hlen].
Qed.

Lemma cmdRun_counts_witness :
  let config :=
    SmokeConfig.mk None
      [demo_test "a" "/a" no_expectations; demo_test "b" "/down" no_expectations] in
  exists run,
    fst (cmdRun demo_now demo_send demo_settle demo_parse (demo_args false false)
           config [] 0%nat) = Some run /\
    (Report.passed (Run.report run) + Report.failed (Run.report run))%nat =
      Report.total (Run.report run).
Proof.
  intros config. eexists. split; [reflexivity|].
  apply (cmdRun_counts demo_now demo_send demo_settle demo_parse
           (demo_args false false) config [] 0%nat).
  reflexivity.
Defined.

(** ** Sequential runs *)

(** X12. Sequential mode without [--bail]. The run completes and its
    report holds one result per test of the config, in the order of the
    tests, whether the results pass or fail. *)
Theorem cmdRun_sequential_all {World : Type} (now : World -> Z)
    (send : Request.t -> World -> World) (settle : Request.t -> World -> Settled * World)
    (JSON_parse : string -> option JSON)
    (args : ParsedArgs.t) (config : SmokeConfig.t) (order : list nat) (w : World) :
  ParsedArgs.parallel args = false ->
  ParsedArgs.bail args = false ->
  exists run,
    fst (cmdRun now send settle JSON_parse args config order w) = Some run /\
    Forall2 result_of (SmokeConfig.tests config) (Report.results (Run.report run)) /\
    Report.total (Run.report run) = length (SmokeConfig.tests config) /\
    map TestResult.name (Report.results (Run.report run)) =
      map TestCase.name (SmokeConfig.tests config).
Proof.
  intros Hseq Hbail. unfold cmdRun. rewrite Hseq, Hbail.
  pose proof (run_sequential_all now send settle JSON_parse
                (cmdRun_baseUrl (cmdRun_env args config))
                (cmdRun_envHeaders (cmdRun_env args config)) (ParsedArgs.timeout args)
                (SmokeConfig.tests config) w) as Hfull.
  destruct (run_sequential _ _ _ _ false _ _ _ _ _ _) as [results w1]. simpl in *.
  eexists. split; [reflexivity|]. simpl. split; [exact Hfull|]. split.
  - symmetry. eapply Forall2_length. exact Hfull.
  - by apply result_of_names.
Qed.

Lemma cmdRun_sequential_all_witness :
  let config :=
    SmokeConfig.mk None
      [demo_test "a" "/down" no_expectations; demo_test "b" "/b" no_expectations] in
  exists run,
    fst (cmdRun demo_now demo_send demo_settle demo_parse (demo_args false false)
           config [] 0%nat) = Some run /\
    map TestResult.name (Report.results (Run.report run)) = ["a"; "b"].
Proof.
  intros config.
  destruct (cmdRun_sequential_all demo_now demo_send demo_settle demo_parse
              (demo_args false false) config [] 0%nat eq_refl eq_refl)
    as (run & Hrun & _ & _ & Hnames).
  exists run. split; [exact Hrun | exact Hnames].
Defined.

Lemma existsb_take_stop results :
  existsb (fun r => negb (TestResult.passed r)) (take (stop_index results) results) =
  existsb (fun r => negb (TestResult.passed r)) results.
Proof.
  induction results as [|r results IH]; simpl; [reflexivity|].
  destruct (TestResult.passed r) eqn:Hp; simpl; rewrite Hp; simpl; [exact IH|].
  by rewrite ?take_0.
Qed.

(** X13. [--bail] never changes the exit code. From the same world, a
    run with [--bail] and the run without it either both complete or
    both do not, and when they complete they exit with the same code. *)
Theorem cmdRun_bail_exitCode {World : Type} (now : World -> Z)
    (send : Request.t -> World -> World) (settle : Request.t -> World -> Settled * World)
    (JSON_parse : string -> option JSON)
    (args : ParsedArgs.t) (config : SmokeConfig.t) (order : list nat) (w : World) :
  Run.exitCode <$> fst (cmdRun now send settle JSON_parse (with_bail true args) config order w)
  = Run.exitCode <$> fst (cmdRun now send settle JSON_parse (with_bail false args) config order w).
Proof.
  unfold cmdRun, with_bail, cmdRun_env. simpl.
  destruct (ParsedArgs.parallel args); [reflexivity|].
  set (env := match SmokeConfig.environments config with
              | Some environments => _
              | None => None
              end).
  pose proof (run_sequential_bail now send settle JSON_parse (cmdRun_baseUrl env)
                (cmdRun_envHeaders env) (ParsedArgs.timeout args)
                (SmokeConfig.tests config) w) as Hbail.
  simpl in Hbail.
  destruct (run_sequential _ _ _ _ true _ _ _ _ _ _) as [results w1].
  destruct (run_sequential _ _ _ _ false _ _ _ _ _ _) as [full w2].
  simpl in *. subst results. by rewrite existsb_take_stop.
Qed.

Lemma take_stop_index_failed results :
  forall i r,
    take (stop_index results) results !! i = Some r ->
    TestResult.passed r = false ->
    S i = length (take (stop_index results) results).
Proof.
  induction results as [|x results IH]; intros i r; simpl.
  - by rewrite lookup_nil.
  - destruct (TestResult.passed x) eqn:Hp; simpl.
    + destruct i as [|i]; simpl.
      * intros [= <-]. congruence.
      * intros Hi Hr. f_equal. by apply (IH i r).
    + rewrite ?take_0. destruct i as [|i]; simpl; [reflexivity|].
      by rewrite lookup_nil.
Qed.

(** X14. Sequential mode with [--bail]. The report holds at most one
    result that has not passed, and such a result is the last one of the
    report. *)
Theorem cmdRun_bail_one_failure {World : Type} (now : World -> Z)
    (send : Request.t -> World -> World) (settle : Request.t -> World -> Settled * World)
    (JSON_parse : string -> option JSON)
    (args : ParsedArgs.t) (config : SmokeConfig.t) (order : list nat) (w : World) :
  ParsedArgs.parallel args = false ->
  ParsedArgs.bail args = true ->
  exists run,
    fst (cmdRun now send settle JSON_parse args config order w) = Some run /\
    (Report.failed (Run.report run) <= 1)%nat /\
    forall i r,
      Report.results (Run.report run) !! i = Some r ->
      TestResult.passed r = false ->
      S i = length (Report.results (Run.report run)).
Proof.
  intros Hseq Hbail. unfold cmdRun. rewrite Hseq, Hbail.
  pose proof (run_sequential_bail now send settle JSON_parse
                (cmdRun_baseUrl (cmdRun_env args config))
                (cmdRun_envHeaders (cmdRun_env args config)) (ParsedArgs.timeout args)
                (SmokeConfig.tests config) w) as Hb.
  simpl in Hb.
  destruct (run_sequential _ _ _ _ true _ _ _ _ _ _) as [results w1].
  destruct (run_sequential _ _ _ _ false _ _ _ _ _ _) as [full w2].
  simpl in *. subst results.
  eexists. split; [reflexivity|]. simpl. split; [|apply take_stop_index_failed].
  clear. induction full as [|x full IH]; simpl; [lia|].
  destruct (TestResult.passed x) eqn:Hp; simpl.
  - rewrite filter_cons, Hp.
    destruct (decide (true = false)) as [?|_]; [done|]. exact IH.
  - rewrite ?take_0, filter_cons, Hp.
    destruct (decide (false = false)) as [_|?]; [|done]. simpl. lia.
Qed.

Lemma cmdRun_bail_one_failure_witness :
  let config :=
    SmokeConfig.mk None
      [demo_test "a" "/down" no_expectations; demo_test "b" "/down" no_expectations] in
  exists run,
    fst (cmdRun demo_now demo_send demo_settle demo_parse (demo_args false true)
           config [] 0%nat) = Some run /\
    (Report.failed (Run.report run) <= 1)%nat.
Proof.
  intros config.
  destruct (cmdRun_bail_one_failure demo_now demo_send demo_settle demo_parse
              (demo_args false true) config [] 0%nat eq_refl eq_refl)
    as (run & Hrun & Hfailed & _).
  exists run. split; [exact Hrun | exact Hfailed].
Defined.

(** ** The command line *)

Ltac arg_kind_cases :=
  unfold arg_kind;
  repeat match goal with
         | |- context [String.eqb ?a ?b] =>
             destruct (String.eqb_spec a b); [subst; simpl | simpl]
         end.

Lemma arg_kind_help arg : arg_kind arg = AHelp <-> arg = "--help" \/ arg = "-h".
Proof. arg_kind_cases; split; try tauto; try discriminate; intros [?|?]; congruence. Qed.

Lemma arg_kind_json arg : arg_kind arg = AJson <-> arg = "--json".
Proof. arg_kind_cases; split; try tauto; try discriminate; intros ?; congruence. Qed.

Lemma arg_kind_parallel arg :
  arg_kind arg = AParallel <-> arg = "--parallel" \/ arg = "-p".
Proof. arg_kind_cases; split; try tauto; try discriminate; intros [?|?]; congruence. Qed.

Lemma arg_kind_bail arg : arg_kind arg = ABail <-> arg = "--bail" \/ arg = "-b".
Proof. arg_kind_cases; split; try tauto; try discriminate; intros [?|?]; congruence. Qed.

Lemma arg_kind_verbose arg : arg_kind arg = AVerbose <-> arg = "--verbose" \/ arg = "-v".
Proof. arg_kind_cases; split; try tauto; try discriminate; intros [?|?]; congruence. Qed.

(** Every option starts with a dash. *)
Lemma arg_kind_dash arg : arg_kind arg <> AOther -> startsWith arg "-" = true.
Proof. arg_kind_cases; try reflexivity; congruence. Qed.

(** The loop goes through [xs ++ ys] as through [xs], then [ys], when no
    option at the end of [xs] waits for its value. *)
Lemma parseArgs_loop_app xs ys result positional :
  complete_args xs ->
  parseArgs_loop (xs ++ ys) result positional =
  parseArgs_loop ys (fst (parseArgs_loop xs result positional))
    (snd (parseArgs_loop xs result positional)).
Proof.
  intros Hxs. revert result positional.
  induction Hxs as [|arg rest Henv Htimeout _ IH|arg value rest Hkind _ IH];
    intros result positional; simpl.
  - reflexivity.
  - destruct (arg_kind arg); try done; try apply IH.
    destruct (parseArgs_positional arg result positional) as [r p]. apply IH.
  - destruct Hkind as [-> | ->]; apply IH.
Qed.

(** X15. Whatever the command line, the timeout that [parseArgs] returns
    is not 0 and the environment name is not the empty string: a timeout
    of 0, one that is no number and a missing one give 10000, an empty
    or missing environment name gives [default]. *)
Theorem parseArgs_never_empty (argv : list string) :
  ParsedArgs.timeout (parseArgs argv) <> 0 /\ ParsedArgs.env (parseArgs argv) <> "".
Proof.
  unfold parseArgs.
  assert (Hstr : forall s, str_or s "default" <> "").
  { intros [s|]; simpl; [|discriminate].
    destruct (String.eqb_spec s ""); [discriminate | done]. }
  assert (Hnum : forall n, num_or n 10000 <> 0).
  { intros [n|]; simpl; [|discriminate].
    destruct (Z.eqb_spec n 0); [discriminate | done]. }
  assert (Hgen : forall n argv result positional,
    (length argv <= n)%nat ->
    ParsedArgs.timeout result <> 0 /\ ParsedArgs.env result <> "" ->
    ParsedArgs.timeout (fst (parseArgs_loop argv result positional)) <> 0 /\
    ParsedArgs.env (fst (parseArgs_loop argv result positional)) <> "").
  { clear argv. induction n as [|n IH]; intros [|arg rest] result positional Hlen Hinv;
      cbn [parseArgs_loop fst length] in *; try exact Hinv; try lia.
    destruct Hinv as [Ht He].
    assert (Hstep : forall argv' result',
      (length argv' <= n)%nat ->
      ParsedArgs.timeout result' = ParsedArgs.timeout result \/
        (exists t, ParsedArgs.timeout result' = num_or t 10000) ->
      ParsedArgs.env result' = ParsedArgs.env result \/
        (exists e, ParsedArgs.env result' = str_or e "default") ->
      forall positional',
        ParsedArgs.timeout (fst (parseArgs_loop argv' result' positional')) <> 0 /\
        ParsedArgs.env (fst (parseArgs_loop argv' result' positional')) <> "").
    { intros argv' result' Hlen' Htime Henv positional'. apply IH; [exact Hlen'|].
      split.
      - destruct Htime as [-> | [t ->]]; [exact Ht | apply Hnum].
      - destruct Henv as [-> | [e ->]]; [exact He | apply Hstr]. }
    destruct (arg_kind arg).
    - apply Hstep; [lia | by left | by left].
    - apply Hstep; [lia | by left | by left].
    - apply Hstep; [lia | by left | by left].
    - apply Hstep; [lia | by left | by left].
    - apply Hstep; [lia | by left | by left].
    - destruct rest as [|value rest].
      + split; [exact Ht | apply Hstr].
      + apply Hstep; [cbn [length] in Hlen; lia | by left | right; by eexists].
    - destruct rest as [|value rest].
      + split; [apply Hnum | exact He].
      + apply Hstep; [cbn [length] in Hlen; lia | right; by eexists | by left].
    - unfold parseArgs_positional.
      destruct (negb (startsWith arg "-")); [|apply Hstep; [lia | by left | by left]].
      destruct (Nat.eqb positional 0); [apply Hstep; [lia | by left | by left]|].
      destruct (Nat.eqb positional 1); apply Hstep; try lia; by left. }
  apply (Hgen (length argv)); [lia|]. simpl. split; discriminate.
Qed.

Lemma parseArgs_loop_plain (argv : list string) :
  Forall (fun arg => plain_arg arg = true) argv ->
  forall result positional,
    let words := filter (fun arg => startsWith arg "-" = false) argv in
    let flag kind := existsb (fun arg => bool_decide (arg_kind arg = kind)) argv in
    let out := fst (parseArgs_loop argv result positional) in
    ParsedArgs.help out = ParsedArgs.help result || flag AHelp /\
    ParsedArgs.json out = ParsedArgs.json result || flag AJson /\
    ParsedArgs.parallel out = ParsedArgs.parallel result || flag AParallel /\
    ParsedArgs.bail out = ParsedArgs.bail result || flag ABail /\
    ParsedArgs.verbose out = ParsedArgs.verbose result || flag AVerbose /\
    ParsedArgs.env out = ParsedArgs.env result /\
    ParsedArgs.timeout out = ParsedArgs.timeout result /\
    ParsedArgs.command out =
      match positional with
      | O => default (ParsedArgs.command result) (words !! 0%nat)
      | _ => ParsedArgs.command result
      end /\
    ParsedArgs.configFile out =
      match positional with
      | O => match words !! 1%nat with
             | Some file => Some file
             | None => ParsedArgs.configFile result
             end
      | 1%nat => match words !! 0%nat with
                 | Some file => Some file
                 | None => ParsedArgs.configFile result
                 end
      | _ => ParsedArgs.configFile result
      end.
Proof.
  induction 1 as [|arg rest Hplain _ IH]; intros result positional.
  - simpl. rewrite !orb_false_r. by destruct positional as [|[|p]].
  - cbn zeta in IH. cbn [parseArgs_loop existsb]. unfold plain_arg in Hplain.
    destruct (arg_kind arg) eqn:Hk; try discriminate Hplain;
      try (rewrite filter_cons_False
             by (rewrite arg_kind_dash by (rewrite Hk; discriminate); discriminate);
           match goal with
           | |- context [parseArgs_loop rest ?r ?p] =>
               destruct (IH r p) as (-> & -> & -> & -> & -> & -> & -> & -> & ->)
           end;
           simpl;
           repeat split; try reflexivity;
           match goal with
           | |- context [?b || _] => destruct b; reflexivity
           end).
    unfold parseArgs_positional.
    destruct (startsWith arg "-") eqn:Hd; simpl negb; cbv iota.
    + rewrite filter_cons_False by (rewrite Hd; discriminate).
      destruct (IH result positional) as (-> & -> & -> & -> & -> & -> & -> & -> & ->).
      simpl. repeat split; reflexivity.
    + rewrite filter_cons_True by exact Hd.
      destruct positional as [|[|p]]; cbn [Nat.eqb];
        match goal with
        | |- context [parseArgs_loop rest ?r ?p] =>
            destruct (IH r p) as (-> & -> & -> & -> & -> & -> & -> & -> & ->)
        end;
        simpl; repeat split; reflexivity.
Qed.

Lemma existsb_arg_kind kind (argv : list string) :
  existsb (fun arg => bool_decide (arg_kind arg = kind)) argv = true <->
  exists arg, arg ∈ argv /\ arg_kind arg = kind.
Proof.
  rewrite existsb_exists. split; intros (arg & Hin & Hk); exists arg.
  - split; [by apply list_elem_of_In | by apply bool_decide_eq_true in Hk].
  - split; [by apply list_elem_of_In | by apply bool_decide_eq_true].
Qed.

(** X16. A command line without [--env] and [--timeout]. A flag is set
    exactly when one of its spellings is among the arguments, in any
    place and any number of times. The command is the first argument
    that does not start with a dash and the config file is the second;
    further ones, and unknown options, are dropped. The environment is
    [default] and the timeout 10000. *)
Theorem parseArgs_flags (argv : list string) :
  Forall (fun arg => plain_arg arg = true) argv ->
  let args := parseArgs argv in
  let words := filter (fun arg => startsWith arg "-" = false) argv in
  (ParsedArgs.help args = true <-> "--help" ∈ argv \/ "-h" ∈ argv) /\
  (ParsedArgs.json args = true <-> "--json" ∈ argv) /\
  (ParsedArgs.parallel args = true <-> "--parallel" ∈ argv \/ "-p" ∈ argv) /\
  (ParsedArgs.bail args = true <-> "--bail" ∈ argv \/ "-b" ∈ argv) /\
  (ParsedArgs.verbose args = true <-> "--verbose" ∈ argv \/ "-v" ∈ argv) /\
  ParsedArgs.command args = default "" (words !! 0%nat) /\
  ParsedArgs.configFile args = words !! 1%nat /\
  ParsedArgs.env args = "default" /\
  ParsedArgs.timeout args = 10000.
Proof.
  intros Hplain args words. unfold args, parseArgs.
  destruct (parseArgs_loop_plain argv Hplain parseArgs_initial 0%nat)
    as (-> & -> & -> & -> & -> & -> & -> & -> & ->).
  fold words. simpl. rewrite !existsb_arg_kind.
  repeat split; try (by destruct (words !! 1%nat)).
  - intros (arg & Hin & Hk). apply arg_kind_help in Hk as [-> | ->]; auto.
  - intros [H|H]; eexists; (split; [exact H|]); reflexivity.
  - intros (arg & Hin & Hk). by apply arg_kind_json in Hk as ->.
  - intros H; eexists; (split; [exact H|]); reflexivity.
  - intros (arg & Hin & Hk). apply arg_kind_parallel in Hk as [-> | ->]; auto.
  - intros [H|H]; eexists; (split; [exact H|]); reflexivity.
  - intros (arg & Hin & Hk). apply arg_kind_bail in Hk as [-> | ->]; auto.
  - intros [H|H]; eexists; (split; [exact H|]); reflexivity.
  - intros (arg & Hin & Hk). apply arg_kind_verbose in Hk as [-> | ->]; auto.
  - intros [H|H]; eexists; (split; [exact H|]); reflexivity.
Qed.

Lemma parseArgs_flags_witness :
  let args := parseArgs ["run"; "-p"; "tests.yaml"; "--color"; "extra"] in
  ParsedArgs.command args = "run" /\
  ParsedArgs.configFile args = Some "tests.yaml" /\
  (ParsedArgs.parallel args = true <->
   "--parallel" ∈ ["run"; "-p"; "tests.yaml"; "--color"; "extra"] \/
   "-p" ∈ ["run"; "-p"; "tests.yaml"; "--color"; "extra"]).
Proof.
  intros args.
  destruct (parseArgs_flags ["run"; "-p"; "tests.yaml"; "--color"; "extra"])
    as (_ & _ & Hp & _ & _ & Hc & Hf & _).
  - repeat constructor.
  - split; [exact Hc|]. split; [exact Hf | exact Hp].
Defined.

Lemma parseArgs_app (xs ys : list string) :
  complete_args xs ->
  parseArgs (xs ++ ys) =
  fst (parseArgs_loop ys (parseArgs xs) (snd (parseArgs_loop xs parseArgs_initial 0%nat))).
Proof. intros Hxs. unfold parseArgs. by rewrite parseArgs_loop_app. Qed.

(** X17. The value of [--env]. After arguments in which every option has
    its value, [--env] (or [-e]) followed by any argument sets the
    environment to that argument, be it a word or the spelling of a flag,
    and leaves everything else as the arguments before it set it: the
    value is never taken for a flag, the command or the config file. An
    empty value gives [default]. *)
Theorem parseArgs_env (xs : list string) (option value : string) :
  complete_args xs ->
  option = "--env" \/ option = "-e" ->
  parseArgs (xs ++ [option; value]) =
  with_env (if String.eqb value "" then "default" else value) (parseArgs xs).
Proof.
  intros Hxs Hopt. rewrite parseArgs_app by exact Hxs.
  destruct Hopt as [-> | ->]; reflexivity.
Qed.

Lemma parseArgs_env_witness :
  parseArgs (["run"; "tests.yaml"; "--env"; "staging"] ++ ["-e"; "--parallel"]) =
  with_env "--parallel" (parseArgs ["run"; "tests.yaml"; "--env"; "staging"]).
Proof.
  apply (parseArgs_env ["run"; "tests.yaml"; "--env"; "staging"] "-e" "--parallel").
  - apply complete_flag; [discriminate | discriminate |].
    apply complete_flag; [discriminate | discriminate |].
    apply complete_value; [by left | apply complete_nil].
  - by right.
Defined.

Lemma digit_prefix_digits digits rest :
  all_digits digits = true -> no_digit_head rest = true ->
  digit_prefix (digits +:+ rest) = digits.
Proof.
  intros Hd Hr. induction digits as [|c digits IH]; simpl in *.
  - destruct rest as [|c rest]; [reflexivity|]. simpl in *.
    by destruct (is_digit c).
  - apply andb_prop in Hd as [-> Hd]. by rewrite IH.
Qed.

Lemma digits_value_uint d rest :
  d <> Decimal.Nil -> no_digit_head rest = true ->
  digits_value (NilEmpty.string_of_uint d +:+ rest) = Some (Z.of_N (Pos.of_uint d)).
Proof.
  intros Hd Hr. unfold digits_value.
  rewrite digit_prefix_digits by (apply string_of_uint_digits || exact Hr).
  destruct (NilEmpty.string_of_uint d) as [|c s] eqn:Htext.
  - destruct d; simpl in Htext; congruence.
  - rewrite <- Htext, NilEmpty.usu. reflexivity.
Qed.

(** [parseInt] reads back a number that is written in decimal, whatever
    follows its digits. *)
Lemma parseInt_Number_toString n rest :
  no_digit_head rest = true ->
  parseInt (Some (Number_toString n +:+ rest)) = Some n.
Proof.
  intros Hr. unfold Number_toString.
  destruct n as [|p|p]; cbn [Z.to_int NilZero.string_of_int].
  - change (NilZero.string_of_uint (Decimal.D0 Decimal.Nil)) with "0".
    unfold parseInt. cbn [append trim_start is_white_space]. simpl.
    change (digits_value (String "0" rest) = Some 0).
    apply (digits_value_uint (Decimal.D0 Decimal.Nil) rest); [discriminate | exact Hr].
  - pose proof (Unsigned.to_uint_nonnil p) as Hp.
    pose proof (uint_text (Pos.to_uint p) Hp) as Htext.
    pose proof (digits_value_uint (Pos.to_uint p) rest Hp Hr) as Hval.
    rewrite DecimalPos.Unsigned.of_to in Hval.
    assert (Hs : NilZero.string_of_uint (Pos.to_uint p)
                 = NilEmpty.string_of_uint (Pos.to_uint p)).
    { unfold NilZero.string_of_uint. destruct (Pos.to_uint p); congruence. }
    rewrite Hs in *.
    destruct (NilEmpty.string_of_uint (Pos.to_uint p)) as [|c s]; [done|].
    destruct Htext as [Hc Hd]. simpl in Hd. apply andb_prop in Hd as [Hdigit _].
    unfold parseInt. simpl.
    assert (Hw : is_white_space c = false).
    { revert Hdigit. clear. destruct c as [[] [] [] [] [] [] [] []]; try discriminate; reflexivity. }
    assert (Hplus : Ascii.eqb c "+" = false).
    { revert Hdigit. clear. destruct c as [[] [] [] [] [] [] [] []]; try discriminate; reflexivity. }
    rewrite Hw, Hc, Hplus. exact Hval.
  - pose proof (Unsigned.to_uint_nonnil p) as Hp.
    pose proof (digits_value_uint (Pos.to_uint p) rest Hp Hr) as Hval.
    rewrite DecimalPos.Unsigned.of_to in Hval.
    assert (Hs : NilZero.string_of_uint (Pos.to_uint p)
                 = NilEmpty.string_of_uint (Pos.to_uint p)).
    { unfold NilZero.string_of_uint. destruct (Pos.to_uint p); congruence. }
    rewrite Hs. unfold parseInt. simpl. rewrite Hval. reflexivity.
Qed.

(** X18. The value of [--timeout]. After arguments in which every option
    has its value, [--timeout] (or [-t]) followed by a safe integer
    written in decimal, with or without a unit or other text after its
    digits, sets the timeout to that number, negative numbers included;
    the number 0 gives 10000. Everything else stays as the arguments
    before set it. (A number that is no safe integer is rounded by
    [parseInt], which the embedding leaves out.) *)
Theorem parseArgs_timeout (xs : list string) (option : string) (n : Z) (unit : string) :
  complete_args xs ->
  option = "--timeout" \/ option = "-t" ->
  safe_integer n = true ->
  no_digit_head unit = true ->
  parseArgs (xs ++ [option; Number_toString n +:+ unit]) =
  with_timeout (if n =? 0 then 10000 else n) (parseArgs xs).
Proof.
  intros Hxs Hopt _ Hunit. rewrite parseArgs_app by exact Hxs.
  destruct Hopt as [-> | ->]; cbn [parseArgs_loop arg_kind String.eqb Ascii.eqb
    Bool.eqb orb fst]; simpl arg_kind; cbv iota;
    by rewrite parseInt_Number_toString.
Qed.

Lemma parseArgs_timeout_witness :
  parseArgs (["run"; "tests.yaml"] ++ ["--timeout"; Number_toString 5000 +:+ "ms"]) =
  with_timeout 5000 (parseArgs ["run"; "tests.yaml"]).
Proof.
  apply (parseArgs_timeout ["run"; "tests.yaml"] "--timeout" 5000 "ms").
  - apply complete_flag; [discriminate | discriminate |].
    apply complete_flag; [discriminate | discriminate |].
    apply complete_nil.
  - by left.
  - reflexivity.
  - reflexivity.
Defined.

(** X19. An option without its value. [--env] as the last argument sets
    the environment back to [default], and [--timeout] as the last
    argument sets the timeout back to 10000, whatever the arguments
    before it chose. So does [--timeout] with an empty value, or with a
    value whose first character is no digit, no sign and no white space. *)
Theorem parseArgs_missing_value (xs : list string) :
  complete_args xs ->
  parseArgs (xs ++ ["--env"]) = with_env "default" (parseArgs xs) /\
  parseArgs (xs ++ ["--timeout"]) = with_timeout 10000 (parseArgs xs) /\
  parseArgs (xs ++ ["--timeout"; ""]) = with_timeout 10000 (parseArgs xs) /\
  forall c rest,
    is_digit c = false -> is_white_space c = false ->
    c <> "-"%char -> c <> "+"%char ->
    parseArgs (xs ++ ["--timeout"; String c rest]) = with_timeout 10000 (parseArgs xs).
Proof.
  intros Hxs. rewrite !parseArgs_app by exact Hxs. split; [reflexivity|].
  split; [reflexivity|]. split; [reflexivity|]. intros c rest Hdigit Hspace Hminus Hplus.
  rewrite parseArgs_app by exact Hxs.
  cbn [parseArgs_loop]. simpl arg_kind. cbv iota. cbn [fst].
  assert (Hnan : parseInt (Some (String c rest)) = None).
  { unfold parseInt. cbn [trim_start]. rewrite Hspace.
    apply Ascii.eqb_neq in Hminus, Hplus. rewrite Hminus, Hplus.
    unfold digits_value. cbn [digit_prefix]. by rewrite Hdigit. }
  by rewrite Hnan.
Qed.

Lemma parseArgs_missing_value_witness :
  parseArgs (["run"; "-e"; "staging"] ++ ["--env"]) =
  with_env "default" (parseArgs ["run"; "-e"; "staging"]).
Proof.
  apply (parseArgs_missing_value ["run"; "-e"; "staging"]).
  apply complete_flag; [discriminate | discriminate |].
  apply complete_value; [by left | apply complete_nil].
Defined.

(** ** Validation *)

Lemma cmdValidate_loop_spec (tests : list AuthoredTest.t) (warnings : nat) :
  (cmdValidate_loop tests warnings = None <->
   Exists (fun test => str_truthy (AuthoredTest.path test) = false) tests) /\
  (forall total,
     cmdValidate_loop tests warnings = Some total ->
     total =
       (warnings
        + length (filter (fun test => str_truthy (AuthoredTest.name test) = false) tests)
        + length (filter (fun test => AuthoredTest.expect test = None) tests))%nat).
Proof.
  revert warnings. induction tests as [|test rest IH]; intros warnings; simpl.
  - split.
    + split; [discriminate | intros H; by apply Exists_nil in H].
    + intros total [= <-]. lia.
  - rewrite !filter_cons.
    destruct (str_truthy (AuthoredTest.path test)) eqn:Hpath; simpl.
    + set (w1 := if negb (str_truthy (AuthoredTest.name test)) then S warnings
                 else warnings).
      set (w2 := match AuthoredTest.expect test with
                 | Some _ => w1
                 | None => S w1
                 end).
      destruct (IH w2) as [IHnone IHsome]. split.
      * rewrite IHnone. split; [apply Exists_cons_tl|].
        intros H. apply Exists_cons in H as [H|H]; [congruence | exact H].
      * intros total Htotal. apply IHsome in Htotal. subst total w2 w1.
        destruct (str_truthy (AuthoredTest.name test)); simpl;
          destruct (AuthoredTest.expect test); simpl;
          repeat case_decide; try congruence; simpl; lia.
    + split; [|discriminate]. split; [|reflexivity].
      intros _. by apply Exists_cons_hd.
Qed.

(** X20. What [validate] rejects. The command exits with code 0 exactly
    when a config file is named, it loads, and every one of its tests
    has a path that is not empty; a test without a name or without
    expectations does not make it fail. Otherwise it exits with code 1
    and reports nothing. *)
Theorem cmdValidate_exitCode (loadConfig : string -> option (list AuthoredTest.t))
    (args : ParsedArgs.t) :
  (snd (cmdValidate loadConfig args) = 0 <->
   exists configFile tests,
     ParsedArgs.configFile args = Some configFile /\
     loadConfig configFile = Some tests /\
     Forall (fun test => str_truthy (AuthoredTest.path test) = true) tests) /\
  (snd (cmdValidate loadConfig args) = 0 \/
   snd (cmdValidate loadConfig args) = 1 /\ fst (cmdValidate loadConfig args) = None).
Proof.
  unfold cmdValidate.
  destruct (ParsedArgs.configFile args) as [configFile|]; simpl.
  2:{ split; [|auto]. split; [discriminate | intros (? & ? & ? & _); discriminate]. }
  destruct (loadConfig configFile) as [tests|] eqn:Hload; simpl.
  2:{ split; [|auto]. split; [discriminate|].
      intros (? & ? & [= <-] & ? & _). congruence. }
  destruct (cmdValidate_loop_spec tests 0) as [Hnone _].
  destruct (cmdValidate_loop tests 0) as [warnings|] eqn:Hloop; simpl.
  - split; [|auto]. split; [|reflexivity]. intros _. exists configFile, tests.
    repeat split; [exact Hload|].
    apply Forall_forall. intros test Hin.
    destruct (str_truthy (AuthoredTest.path test)) eqn:Hp; [reflexivity|].
    assert (Some warnings = None); [|discriminate].
    apply Hnone. apply Exists_exists. eauto.
  - split; [|auto]. split; [discriminate|].
    intros (file & tests' & [= <-] & Hload' & Hall).
    rewrite Hload in Hload'. injection Hload' as <-.
    assert (Hex : Exists (fun test => str_truthy (AuthoredTest.path test) = false) tests)
      by by apply Hnone.
    apply Exists_exists in Hex as (test & Hin & Hp).
    rewrite Forall_forall in Hall. specialize (Hall test Hin). congruence.
Qed.

(** X21. What [validate] reports. For a config that is accepted, the
    report counts every test and one warning for each test without a
    name and one for each test without expectations: at most two
    warnings per test. *)
Theorem cmdValidate_report (loadConfig : string -> option (list AuthoredTest.t))
    (args : ParsedArgs.t) (report : Validation.t) :
  fst (cmdValidate loadConfig args) = Some report ->
  exists configFile tests,
    ParsedArgs.configFile args = Some configFile /\
    loadConfig configFile = Some tests /\
    Validation.valid report = true /\
    Validation.tests report = length tests /\
    Validation.warnings report =
      (length (filter (fun test => str_truthy (AuthoredTest.name test) = false) tests)
       + length (filter (fun test => AuthoredTest.expect test = None) tests))%nat /\
    (Validation.warnings report <= 2 * Validation.tests report)%nat.
Proof.
  unfold cmdValidate.
  destruct (ParsedArgs.configFile args) as [configFile|]; [|discriminate].
  destruct (loadConfig configFile) as [tests|] eqn:Hload; [|discriminate].
  destruct (cmdValidate_loop_spec tests 0) as [_ Hsome].
  destruct (cmdValidate_loop tests 0) as [warnings|]; [|discriminate].
  simpl. intros [= <-]. exists configFile, tests. simpl.
  specialize (Hsome warnings eq_refl).
  repeat split; auto.
  pose proof (length_filter (fun test => str_truthy (AuthoredTest.name test) = false) tests).
  pose proof (length_filter (fun test => AuthoredTest.expect test = None) tests).
  lia.
Qed.

Lemma cmdValidate_report_witness :
  let tests :=
    [AuthoredTest.mk None (Some "/a") None;
     AuthoredTest.mk (Some "b") (Some "/b") (Some no_expectations)] in
  let loadConfig (file : string) := Some tests in
  exists report,
    fst (cmdValidate loadConfig (demo_args false false)) = Some report /\
    Validation.tests report = 2%nat /\
    (Validation.warnings report <= 2 * Validation.tests report)%nat.
Proof.
  intros tests loadConfig. eexists. split; [reflexivity|].
  destruct (cmdValidate_report loadConfig (demo_args false false)
              (Validation.mk true 2 2) eq_refl)
    as (file & tests' & _ & _ & _ & Htests & _ & Hwarn).
  split; [reflexivity | exact Hwarn].
Defined.

(** ** The console *)

(** X22. No failure is hidden. For the result of a test, with or without
    [--verbose]: every assertion that has failed is printed, with its
    detail when it has one; and a result with an error is printed as
    its headline and the error, when the message is not empty. *)
Theorem printTestResult_failures {World : Type} (now : World -> Z)
    (send : Request.t -> World -> World) (settle : Request.t -> World -> Settled * World)
    (JSON_parse : string -> option JSON)
    (test : TestCase.t) (baseUrl : string) (envHeaders : gmap string string)
    (timeout : Z) (w : World) (verbose : bool) :
  let result := fst (runTest now send settle JSON_parse test baseUrl envHeaders timeout w) in
  (forall a,
     a ∈ TestResult.assertions result -> Assertion.passed a = false ->
     AssertionLine false (Assertion.check a)
       (if str_truthy (Assertion.detail a) then Assertion.detail a else None)
       ∈ printTestResult result verbose) /\
  (forall message,
     TestResult.error result = Some message -> message <> "" ->
     printTestResult result verbose =
       [ResultLine false (TestCase.name test) (TestResult.responseTime result);
        ErrorLine message]).
Proof.
  intros result. unfold result.
  destruct (runTest_is_result now send settle JSON_parse test baseUrl envHeaders timeout w)
    as (start & [response|message] & finish & ->); unfold runTest_result;
    [destruct (checkAssertions_throws test response)|]; simpl.
  - split; [intros a Ha; by apply elem_of_nil in Ha|].
    intros m [= <-] _. reflexivity.
  - split; [|discriminate]. intros a Ha Hfailed.
    unfold printTestResult. simpl.
    assert (Hnot : forallb Assertion.passed (checkAssertions test response) = false).
    { apply not_true_is_false. intros Hall. rewrite forallb_forall in Hall.
      rewrite Hall in Hfailed by by apply list_elem_of_In. discriminate. }
    rewrite Hnot. simpl. right.
    apply list_elem_of_fmap. exists a. by rewrite Hfailed.
  - split; [intros a Ha; by apply elem_of_nil in Ha|].
    intros m [= <-] Hne. unfold printTestResult. simpl.
    destruct (String.eqb_spec message ""); [contradiction | reflexivity].
Qed.

(** X23. The summary agrees with the report and with the exit code. For
    every run that completes, [printRunSummary] shows the counts of the
    report, and it announces that all tests passed exactly when the
    process exits with code 0; otherwise it tells how many have failed,
    and that number is not 0. *)
Theorem printRunSummary_agrees {World : Type} (now : World -> Z)
    (send : Request.t -> World -> World) (settle : Request.t -> World -> Settled * World)
    (JSON_parse : string -> option JSON)
    (args : ParsedArgs.t) (config : SmokeConfig.t) (order : list nat) (w : World)
    (run : Run.t) :
  fst (cmdRun now send settle JSON_parse args config order w) = Some run ->
  let report := Run.report run in
  printRunSummary (Report.results report) (Report.duration report) =
    [SummaryLine (Report.total report) (Report.passed report) (Report.failed report)
       (Report.duration report);
     if Run.exitCode run =? 0 then AllPassedLine else FailedLine (Report.failed report)] /\
  (Run.exitCode run <> 0 -> Report.failed report <> 0%nat).
Proof.
  intros Hrun.
  destruct (cmdRun_run now send settle JSON_parse args config order w run Hrun)
    as (results & duration & ->). simpl.
  pose proof (filter_passed_length results) as Hlen.
  pose proof (failed_count results) as Hcount.
  pose proof (some_not_passed results) as Hsome.
  unfold printRunSummary.
  assert (Hfailed : (length results
                     - length (filter (fun r => TestResult.passed r = true) results))%nat
                    = length (filter (fun r => TestResult.passed r = false) results))
    by lia.
  rewrite Hfailed.
  destruct (existsb _ results) eqn:Hex; simpl.
  - assert (Hne : length (filter (fun r => TestResult.passed r = false) results) <> 0%nat).
    { intros Hzero. apply Hcount in Hzero.
      destruct Hsome as [Hsome _]. specialize (Hsome eq_refl).
      apply Exists_exists in Hsome as (r & Hin & Hr).
      rewrite Forall_forall in Hzero. specialize (Hzero r Hin). congruence. }
    split; [|auto]. apply Nat.eqb_neq in Hne. by rewrite Hne.
  - split; [|done].
    assert (Hzero : length (filter (fun r => TestResult.passed r = false) results) = 0%nat).
    { apply Hcount. apply Forall_forall. intros r Hin.
      destruct (TestResult.passed r) eqn:Hp; [reflexivity|].
      assert (false = true); [|discriminate].
      apply Hsome. apply Exists_exists. eauto. }
    by rewrite Hzero.
Qed.

Lemma printRunSummary_agrees_witness :
  let config :=
    SmokeConfig.mk None
      [demo_test "a" "/a" no_expectations; demo_test "b" "/down" no_expectations] in
  exists run,
    fst (cmdRun demo_now demo_send demo_settle demo_parse (demo_args false false)
           config [] 0%nat) = Some run /\
    printRunSummary (Report.results (Run.report run)) (Report.duration (Run.report run)) =
      [SummaryLine 2 1 1 4; FailedLine 1].
Proof.
  intros config. eexists. split; [reflexivity|].
  apply (printRunSummary_agrees demo_now demo_send demo_settle demo_parse
           (demo_args false false) config [] 0%nat).
  reflexivity.
Defined.
